(** * Legion: the coloured search tree and the MCTS loop of [Legion.py]

    A shallow embedding of the tree model of [Legion.py] (class [TreeNode] and
    the module-level functions around it) together with the properties of the
    specification that concern it.

    Python objects are references: a [TreeNode] points to its parent and to
    its children, and the same node is reached and mutated through several
    paths.  The tree is therefore kept in an arena: a [heap] is the list of
    all nodes ever built, a [handle] is an index into it, and constructing a
    [TreeNode] appends to the arena.  Every function of the source that
    mutates a node takes the heap and returns the new heap. *)

From Stdlib Require Import ZArith QArith.
From Stdlib.Strings Require Import Byte.
From stdpp Require Import base tactics option list numbers.

Local Open Scope Z_scope.
Local Open Scope nat_scope.

(** ** Exceptions, and the monad functions of the source run in *)

Inductive exn :=
| AssertionError      (* [assert] inside [debug_assertion] *)
| KeyError            (* [d[k]] on a missing key *)
| AttributeError      (* attribute access on [None] *)
| IndexError          (* [l[i]] out of range *)
| ZeroDivisionError   (* [x / 0] *)
| ValueError          (* [math.log] or [math.sqrt] out of domain *)
| OverflowError       (* [int.to_bytes] that does not fit *)
| BadHandle.          (* arena index out of range: no Python counterpart *)

Inductive result (A : Type) :=
| Ok (a : A)
| Raise (e : exn)
| OutOfFuel.
Arguments Ok {A} a.
Arguments Raise {A} e.
Arguments OutOfFuel {A}.

#[global] Instance result_ret : MRet result := @Ok.
#[global] Instance result_bind : MBind result := λ A B f m,
  match m with
  | Ok a => f a
  | Raise e => Raise e
  | OutOfFuel => OutOfFuel
  end.

(** [debug_assertion]: with the default logging level ([ERROR]) a failed
    assertion is Python's [assert], which raises. *)
Definition debug_assertion (assertion : bool) : result unit :=
  if assertion then Ok tt else Raise AssertionError.

(** ** The data model *)

Inductive Colour := W | R | G | B.

#[global] Instance Colour_eq_dec : EqDecision Colour.
Proof. solve_decision. Defined.

(** Keys of [TreeNode.children]: an address, or the string ['Simulation']. *)
Inductive key := KAddr (a : Z) | Simulation.

#[global] Instance key_eq_dec : EqDecision key.
Proof. solve_decision. Defined.

(** What the code reads of an angr [SimState]: its address, whether its
    solver carries constraints, the width in bits of the symbolic standard
    input, and the values [solver.iterate] yields for it ([None] where the
    next value needs another call of the constraint solver). *)
Record State := {
  st_addr : Z;
  st_constraints : list Z;
  st_stdin_bits : nat;
  st_models : list (option Z)
}.

Abbreviation handle := nat (only parsing).

(** A Python [dict] keeps its keys in insertion order. *)
Abbreviation dict := (list (key * handle)) (only parsing).

Fixpoint dict_get (k : key) (d : dict) : option handle :=
  match d with
  | [] => None
  | (k', v) :: d' => if decide (k = k') then Some v else dict_get k d'
  end.

(** [d[k] = v]: replaces the value of an existing key in place, else appends. *)
Fixpoint dict_set (k : key) (v : handle) (d : dict) : dict :=
  match d with
  | [] => [(k, v)]
  | (k', v') :: d' =>
      if decide (k = k') then (k, v) :: d' else (k', v') :: dict_set k v d'
  end.

Definition dict_mem (k : key) (d : dict) : bool :=
  if dict_get k d is Some _ then true else false.

Definition dict_values (d : dict) : list handle := d.*2.

Record TreeNode := {
  addr : Z;
  parent : option handle;
  children : dict;
  colour : Colour;
  phantom : bool;
  state : option State;
  samples : option (list (option Z));
  sel_try : nat;
  sel_win : nat;
  sim_try : nat;
  sim_win : nat;
  accumulated_time : Q;
  fully_explored : bool
}.

(** [TreeNode.__init__] as every caller in the source uses it: only [addr]
    and [parent] are passed. *)
Definition TreeNode_init (a : Z) (p : option handle) : TreeNode :=
  {| addr := a; parent := p; children := [];
     colour := W; phantom := false;
     state := None; samples := None;
     sel_try := 0; sel_win := 0; sim_try := 0; sim_win := 0;
     accumulated_time := 0%Q;
     fully_explored := false |}.

Definition set_children (d : dict) (x : TreeNode) : TreeNode :=
  {| addr := addr x; parent := parent x; children := d;
     colour := colour x; phantom := phantom x;
     state := state x; samples := samples x;
     sel_try := sel_try x; sel_win := sel_win x;
     sim_try := sim_try x; sim_win := sim_win x;
     accumulated_time := accumulated_time x;
     fully_explored := fully_explored x |}.

Definition set_colour (c : Colour) (x : TreeNode) : TreeNode :=
  {| addr := addr x; parent := parent x; children := children x;
     colour := c; phantom := phantom x;
     state := state x; samples := samples x;
     sel_try := sel_try x; sel_win := sel_win x;
     sim_try := sim_try x; sim_win := sim_win x;
     accumulated_time := accumulated_time x;
     fully_explored := fully_explored x |}.

Definition set_phantom (b : bool) (x : TreeNode) : TreeNode :=
  {| addr := addr x; parent := parent x; children := children x;
     colour := colour x; phantom := b;
     state := state x; samples := samples x;
     sel_try := sel_try x; sel_win := sel_win x;
     sim_try := sim_try x; sim_win := sim_win x;
     accumulated_time := accumulated_time x;
     fully_explored := fully_explored x |}.

Definition set_state (s : option State) (x : TreeNode) : TreeNode :=
  {| addr := addr x; parent := parent x; children := children x;
     colour := colour x; phantom := phantom x;
     state := s; samples := samples x;
     sel_try := sel_try x; sel_win := sel_win x;
     sim_try := sim_try x; sim_win := sim_win x;
     accumulated_time := accumulated_time x;
     fully_explored := fully_explored x |}.

Definition set_samples (s : option (list (option Z))) (x : TreeNode) : TreeNode :=
  {| addr := addr x; parent := parent x; children := children x;
     colour := colour x; phantom := phantom x;
     state := state x; samples := s;
     sel_try := sel_try x; sel_win := sel_win x;
     sim_try := sim_try x; sim_win := sim_win x;
     accumulated_time := accumulated_time x;
     fully_explored := fully_explored x |}.

Definition set_sel_try (n : nat) (x : TreeNode) : TreeNode :=
  {| addr := addr x; parent := parent x; children := children x;
     colour := colour x; phantom := phantom x;
     state := state x; samples := samples x;
     sel_try := n; sel_win := sel_win x;
     sim_try := sim_try x; sim_win := sim_win x;
     accumulated_time := accumulated_time x;
     fully_explored := fully_explored x |}.

Definition set_sim_try (n : nat) (x : TreeNode) : TreeNode :=
  {| addr := addr x; parent := parent x; children := children x;
     colour := colour x; phantom := phantom x;
     state := state x; samples := samples x;
     sel_try := sel_try x; sel_win := sel_win x;
     sim_try := n; sim_win := sim_win x;
     accumulated_time := accumulated_time x;
     fully_explored := fully_explored x |}.

Definition set_sim_win (n : nat) (x : TreeNode) : TreeNode :=
  {| addr := addr x; parent := parent x; children := children x;
     colour := colour x; phantom := phantom x;
     state := state x; samples := samples x;
     sel_try := sel_try x; sel_win := sel_win x;
     sim_try := sim_try x; sim_win := n;
     accumulated_time := accumulated_time x;
     fully_explored := fully_explored x |}.

Definition set_fully_explored (b : bool) (x : TreeNode) : TreeNode :=
  {| addr := addr x; parent := parent x; children := children x;
     colour := colour x; phantom := phantom x;
     state := state x; samples := samples x;
     sel_try := sel_try x; sel_win := sel_win x;
     sim_try := sim_try x; sim_win := sim_win x;
     accumulated_time := accumulated_time x;
     fully_explored := b |}.

(** ** The arena *)

Abbreviation heap := (list TreeNode) (only parsing).

(** Dereference of a node. *)
Definition node (h : heap) (n : handle) : result TreeNode :=
  match h !! n with
  | Some x => Ok x
  | None => Raise BadHandle
  end.

(** Assignment to fields of the node [n]. *)
Definition update (f : TreeNode → TreeNode) (n : handle) (h : heap) : heap :=
  alter f n h.

(** Construction of a fresh node: its handle is the next free index. *)
Definition alloc (x : TreeNode) (h : heap) : handle * heap :=
  (length h, h ++ [x]).

(** Python's truth value of an optional object. *)
Definition truthy {A} (o : option A) : bool :=
  if o is Some _ then true else false.

Definition is_colour (c : Colour) (x : TreeNode) : bool :=
  bool_decide (colour x = c).

(** ** Methods of [TreeNode] *)

(** The nodes a list of references points to. *)
Fixpoint nodes (h : heap) (l : list handle) : result (list TreeNode) :=
  match l with
  | [] => Ok []
  | n :: l' => x ← node h n; xs ← nodes h l'; Ok (x :: xs)
  end.

(** [is_root]: [not self.parent]. *)
Definition is_root (x : TreeNode) : bool := negb (truthy (parent x)).

(** [is_leaf]: no children, or only Gold ones. *)
Definition is_leaf (n : handle) (h : heap) : result bool :=
  x ← node h n;
  cs ← nodes h (dict_values (children x));
  Ok (bool_decide (children x = []) || forallb (is_colour G) cs).

(** [is_diverging]: more children than the Simulation child and one more;
    the membership test counts as 0 or 1. *)
Definition is_diverging (x : TreeNode) : bool :=
  bool_decide ((if dict_mem Simulation (children x) then 1 else 0) + 1
               < length (children x)).

(** [add_child]: the assertion reads [new_child.addr], then the dictionary
    of [self] is assigned. *)
Definition add_child (k : key) (c : handle) (n : handle) (h : heap)
  : result heap :=
  y ← node h c;
  debug_assertion (xorb (bool_decide (k = Simulation))
                        (bool_decide (k = KAddr (addr y))));;
  x ← node h n;
  Ok (update (set_children (dict_set k c (children x))) n h).

(** [dye].  The method calls itself once, on the fresh Simulation child and
    with colour Gold, so two levels of recursion are all it ever uses. *)
Fixpoint dye_rec (fuel : nat) (c : Colour) (st : option State)
    (smp : option (list (option Z))) (n : handle) (h : heap) : result heap :=
  match fuel with
  | 0 => OutOfFuel
  | S fuel' =>
      x ← node h n;
      debug_assertion (is_colour W x);;
      debug_assertion (bool_decide (c = B) || truthy st);;
      let h := update (set_colour c) n h in
      if decide (c = R) then
        debug_assertion (negb (dict_mem Simulation (children x)));;
        let '(g, h) := alloc (TreeNode_init (addr x) (Some n)) h in
        h ← add_child Simulation g n h;
        x ← node h n;
        match dict_get Simulation (children x) with
        | None => Raise KeyError
        | Some g' => dye_rec fuel' G st smp g' h
        end
      else
        Ok (update (set_samples smp) n (update (set_state st) n h))
  end.

Definition dye := dye_rec 2.

(** [mark_fully_explored]; the recursion climbs the parent chain. *)
Fixpoint mark_fully_explored (fuel : nat) (n : handle) (h : heap)
  : result heap :=
  match fuel with
  | 0 => OutOfFuel
  | S fuel' =>
      x ← node h n;
      if is_colour W x then Ok h else
      cs ← nodes h (dict_values (children x));
      if negb (forallb fully_explored (filter (λ c, colour c ≠ G) cs))
      then Ok h else
      if bool_decide (sel_try x = 0) && is_colour R x then Ok h else
      let h := update (set_fully_explored true) n h in
      h ← (if is_colour R x then
             match dict_get Simulation (children x) with
             | None => Raise KeyError
             | Some g => node h g;; Ok (update (set_fully_explored true) g h)
             end
           else Ok h);
      match parent x with
      | Some p => mark_fully_explored fuel' p h
      | None => Ok h
      end
  end.

(** [match_child]: the child at [addr], created White when there is none. *)
Definition match_child (a : Z) (n : handle) (h : heap)
  : result (bool * handle * heap) :=
  x ← node h n;
  match dict_get (KAddr a) (children x) with
  | Some c =>
      y ← node h c;
      Ok (phantom y, c, update (set_phantom false) c h)
  | None =>
      let '(c, h) := alloc (TreeNode_init a (Some n)) h in
      h ← add_child (KAddr a) c n h;
      Ok (true, c, h)
  end.

(** [print_path]: the loop climbs from the node and collects the
    addresses, and the list is returned reversed. *)
Fixpoint print_path_loop (fuel : nat) (p : option handle) (path : list Z)
    (h : heap) : result (list Z) :=
  match p with
  | None => Ok (rev path)
  | Some n =>
      match fuel with
      | 0 => OutOfFuel
      | S fuel' =>
          x ← node h n;
          print_path_loop fuel' (parent x) (path ++ [addr x]) h
      end
  end.

Definition print_path (fuel : nat) (n : handle) (h : heap)
  : result (list Z) :=
  print_path_loop fuel (Some n) [] h.

(** ** Expansion *)

(** The loop of [integrate_path] over [trace[1:]], from the loop state
    [(node, is_new)]. *)
Fixpoint integrate_walk (tr : list Z) (n : handle) (is_new : bool) (h : heap)
  : result (handle * bool * heap) :=
  match tr with
  | [] => Ok (n, is_new, h)
  | a :: tr' =>
      '(new_child, child, h) ← match_child a n h;
      integrate_walk tr' child (is_new || new_child) h
  end.

Definition integrate_path (ROOT : handle) (trace : list Z) (h : heap)
  : result (bool * heap) :=
  match trace with
  | [] => Raise IndexError
  | a0 :: rest =>
      r ← node h ROOT;
      debug_assertion (bool_decide (a0 = addr r));;
      '(n, is_new, h) ← integrate_walk rest ROOT false h;
      x ← node h n;
      let is_new := is_new || bool_decide (sim_try x = 0) in
      let h := update (set_sim_try (if bool_decide (sim_try x = 0) then 1
                                    else sim_try x)) n h in
      Ok (is_new, h)
  end.

Fixpoint expansion (ROOT : handle) (traces : list (list Z)) (h : heap)
  : result (list bool * heap) :=
  match traces with
  | [] => Ok ([], h)
  | trace :: traces' =>
      '(b, h) ← integrate_path ROOT trace h;
      '(bs, h) ← expansion ROOT traces' h;
      Ok (b :: bs, h)
  end.


(** ** Module-level variables *)

(** The hyper-parameters and budgets, assigned once from the command line. *)
Record Config := {
  MIN_SAMPLES : Z;
  MAX_SAMPLES : Z;
  TIME_COEFF : Q;
  MAX_BYTES : nat;
  MAX_PATHS : option nat;     (* [None] is [float('inf')] *)
  MAX_ROUNDS : option nat;
  CUR_ROUND : nat;
  COVERAGE_ONLY : bool;
  SEEDS : list (list byte);
  BUG_RET : Z
}.

Definition default_config : Config :=
  {| MIN_SAMPLES := 5; MAX_SAMPLES := 100; TIME_COEFF := 0%Q;
     MAX_BYTES := 100; MAX_PATHS := None; MAX_ROUNDS := None;
     CUR_ROUND := 0; COVERAGE_ONLY := false; SEEDS := []; BUG_RET := 100 |}.

(** The globals the run writes to, with the two effects on the outside
    world: the position reached on the tape of random numbers, and the
    inputs the binary has been launched on, latest first. *)
Record Globals := {
  FOUND_BUG : bool;
  SOLVING_COUNT : nat;
  RANDOM : nat;
  LAUNCHED : list (list byte)
}.

Definition initial_globals : Globals :=
  {| FOUND_BUG := false; SOLVING_COUNT := 0; RANDOM := 0; LAUNCHED := [] |}.

Definition set_FOUND_BUG (b : bool) (g : Globals) : Globals :=
  {| FOUND_BUG := b; SOLVING_COUNT := SOLVING_COUNT g;
     RANDOM := RANDOM g; LAUNCHED := LAUNCHED g |}.

Definition set_SOLVING_COUNT (n : nat) (g : Globals) : Globals :=
  {| FOUND_BUG := FOUND_BUG g; SOLVING_COUNT := n;
     RANDOM := RANDOM g; LAUNCHED := LAUNCHED g |}.

Definition set_RANDOM (n : nat) (g : Globals) : Globals :=
  {| FOUND_BUG := FOUND_BUG g; SOLVING_COUNT := SOLVING_COUNT g;
     RANDOM := n; LAUNCHED := LAUNCHED g |}.

Definition set_LAUNCHED (l : list (list byte)) (g : Globals) : Globals :=
  {| FOUND_BUG := FOUND_BUG g; SOLVING_COUNT := SOLVING_COUNT g;
     RANDOM := RANDOM g; LAUNCHED := l |}.

(** ** [TreeNode.score] *)

(** The finite scores are floating-point values built with [sqrt] and [log];
    a finite score is kept as the operands of the UCT formula
    [exploit + 2 * RHO * sqrt (2 * log explore_log / explore_den) - penalty],
    with the quotients taken exactly. *)
Record UCT := {
  exploit : Q;          (* [sim_win / sel_try] *)
  explore_log : nat;    (* [parent.sel_try] *)
  explore_den : nat;    (* [sim_try + 1] *)
  penalty : Q           (* [TIME_COEFF * time_penalisation()] *)
}.

Inductive Score := NegInf | PosInf | Finite (u : UCT).

Definition Q_of_nat (n : nat) : Q := inject_Z (Z.of_nat n).

Section score.
Variable cfg : Config.

(** [count = ceil(log(MIN_SAMPLES, 2) + self.sel_try - 1)]: [sel_try] is
    an integer, so this is the ceiling of the logarithm plus
    [sel_try - 1]; the logarithm is taken exactly. *)
Definition constraint_solving_count (x : TreeNode) : result Z :=
  if (MIN_SAMPLES cfg <=? 0)%Z then Raise ValueError
  else Ok (Z.log2_up (MIN_SAMPLES cfg) + Z.of_nat (sel_try x) - 1)%Z.

Definition average_constraint_solving_time (x : TreeNode) : result Q :=
  count ← constraint_solving_count x;
  if (count =? 0)%Z then Raise ZeroDivisionError
  else Ok (accumulated_time x / inject_Z count)%Q.

Definition expected_sample_num (x : TreeNode) : Z :=
  Z.min (MAX_SAMPLES cfg) (MIN_SAMPLES cfg * 2 ^ Z.of_nat (sel_try x)).

Definition time_penalisation (x : TreeNode) : result Q :=
  t ← average_constraint_solving_time x;
  let e := expected_sample_num x in
  if (e =? 0)%Z then Raise ZeroDivisionError
  else Ok (t / inject_Z e)%Q.

Definition score (n : handle) (h : heap) : result Score :=
  x ← node h n;
  if fully_explored x then Ok NegInf else
  if bool_decide (sel_try x = 0) then Ok PosInf else
  if is_root x then Ok PosInf else
  let exploit := (Q_of_nat (sim_win x) / Q_of_nat (sel_try x))%Q in
  p ← match parent x with
      | Some p => node h p
      | None => Raise AttributeError
      end;
  (* [log(self.parent.sel_try)] *)
  (if bool_decide (sel_try p = 0) then Raise ValueError else Ok tt);;
  t ← time_penalisation x;
  Ok (Finite {| exploit := exploit;
                explore_log := sel_try p;
                explore_den := sim_try x + 1;
                penalty := (TIME_COEFF cfg * t)%Q |}).
End score.

(** ** The Sampler: [mutate], [app_fuzzing], [random_fuzzing] *)

Definition byte_of_Z (z : Z) : byte := default x00 (Byte.of_N (Z.to_N z)).

Fixpoint to_bytes_little (len : nat) (v : Z) : list byte :=
  match len with
  | 0 => []
  | S len' => byte_of_Z (v mod 256) :: to_bytes_little len' (v / 256)
  end.

(** [val.to_bytes(len, 'big')] *)
Definition to_bytes (len : nat) (v : Z) : result (list byte) :=
  if ((v <? 0) || (256 ^ Z.of_nat len <=? v))%Z then Raise OverflowError
  else Ok (rev (to_bytes_little len v)).

(** The value of a byte string read as a big-endian number. *)
Definition big_endian (bs : list byte) : Z :=
  fold_left (λ acc b, 256 * acc + Z.of_N (Byte.to_N b))%Z bs 0%Z.

(** The [while] loop of [app_fuzzing].  Every turn takes one element off the
    iterator [smp] or leaves the loop; the result is the list [results], what
    is left of the iterator, and whether [StopIteration] was caught. *)
Fixpoint app_fuzzing_loop (cfg : Config) (byte_len : nat)
    (smp : list (option Z)) (results : list (list byte))
  : result (list (list byte) * list (option Z) * bool) :=
  if negb (Z.of_nat (length results) <? MAX_SAMPLES cfg)%Z
  then Ok (results, smp, false) else
  match smp with
  | [] => Ok (results, [], true)
  | None :: smp' =>
      if (MIN_SAMPLES cfg <=? Z.of_nat (length results))%Z
      then Ok (results, smp', false)
      else app_fuzzing_loop cfg byte_len smp' results
  | Some val :: smp' =>
      r ← to_bytes byte_len val;
      app_fuzzing_loop cfg byte_len smp' (results ++ [r])
  end.

Definition app_fuzzing (cfg : Config) (fuel : nat) (n : handle) (h : heap)
  : result (list (list byte) * heap) :=
  x ← node h n;
  st ← match state x with
       | Some st => Ok st
       | None => Raise AttributeError
       end;
  let byte_len := (st_stdin_bits st + 7) / 8 in
  let smp := match samples x with
             | Some smp => smp
             | None => st_models st
             end in
  '(results, smp, exhausted) ← app_fuzzing_loop cfg byte_len smp [];
  let h := update (set_samples (Some smp)) n h in
  if (exhausted : bool) then
    let h := update (set_fully_explored true) n h in
    h ← mark_fully_explored fuel n h;
    Ok (results, h)
  else Ok (results, h).

(** ** The Runner: [unpack], [binary_execute] *)

(** The value of a byte string read as a little-endian number. *)
Fixpoint little_endian (bs : list byte) : Z :=
  match bs with
  | [] => 0
  | b :: bs' => Z.of_N (Byte.to_N b) + 256 * little_endian bs'
  end.

(** [struct.unpack_from('q', output, offset)]: format [q] is a signed
    [long long] of 8 bytes in the byte order of the machine, taken
    little-endian here (x86-64); [struct.error] when fewer than 8 bytes are
    left is rendered as [IndexError]. *)
Definition unpack_from_q (output : list byte) (offset : nat)
  : result (list Z) :=
  let bs := take 8 (drop offset output) in
  if decide (length bs = 8) then
    let u := little_endian bs in
    Ok [if (u <? 2 ^ 63)%Z then u else (u - 2 ^ 64)%Z]
  else Raise IndexError.

Fixpoint unpack_loop (output : list byte) (range : list nat)
  : result (list Z) :=
  match range with
  | [] => Ok []
  | i :: range' =>
      addrs ← unpack_from_q output (i * 8);
      rest ← unpack_loop output range';
      Ok (addrs ++ rest)
  end.

Definition unpack (output : list byte) : result (list Z) :=
  debug_assertion (bool_decide (length output mod 8 = 0));;
  unpack_loop output (seq 0 (length output / 8)).

(** ** Statistics: [propagation] *)

Definition record_simulation (n : handle) (new : bool) (h : heap)
  : result heap :=
  x ← node h n;
  let h := update (set_sim_win (sim_win x + (if new then 1 else 0))) n h in
  x ← node h n;
  let h := update (set_sim_try (sim_try x + 1)) n h in
  x ← node h n;
  match dict_get Simulation (children x) with
  | Some s =>
      y ← node h s;
      Ok (update (set_sim_try (sim_try y + 1)) s h)
  | None => Ok h
  end.

(** The loop of [propagate_execution_trace] over [trace[1:]]. *)
Fixpoint propagate_walk (tr : list Z) (n : handle) (is_new : bool) (h : heap)
  : result (handle * heap) :=
  match tr with
  | [] => Ok (n, h)
  | a :: tr' =>
      x ← node h n;
      match dict_get (KAddr a) (children x) with
      | None => Raise KeyError
      | Some c =>
          h ← record_simulation c is_new h;
          propagate_walk tr' c is_new h
      end
  end.

Definition propagate_execution_trace (fuel : nat) (ROOT : handle)
    (trace : list Z) (is_new : bool) (h : heap) : result heap :=
  match trace with
  | [] => Raise IndexError
  | a0 :: rest =>
      r ← node h ROOT;
      debug_assertion (bool_decide (a0 = addr r));;
      h ← record_simulation ROOT is_new h;
      '(n, h) ← propagate_walk rest ROOT is_new h;
      mark_fully_explored fuel n h
  end.

Fixpoint propagate_execution_traces_loop (fuel : nat) (ROOT : handle)
    (traces : list (list Z)) (are_new : list bool) (h : heap) : result heap :=
  match traces with
  | [] => Ok h
  | trace :: traces' =>
      match are_new with
      | [] => Raise IndexError
      | is_new :: are_new' =>
          h ← propagate_execution_trace fuel ROOT trace is_new h;
          propagate_execution_traces_loop fuel ROOT traces' are_new' h
      end
  end.

Definition propagate_execution_traces (fuel : nat) (ROOT : handle)
    (traces : list (list Z)) (are_new : list bool) (h : heap) : result heap :=
  debug_assertion (bool_decide (length traces = length are_new));;
  propagate_execution_traces_loop fuel ROOT traces are_new h.

(** [propagate_selection_path]: the loop climbs from the selected node. *)
Fixpoint propagate_selection_path (fuel : nat) (n : option handle)
    (are_new : list bool) (h : heap) : result heap :=
  match n with
  | None => Ok h
  | Some n =>
      match fuel with
      | 0 => OutOfFuel
      | S fuel' =>
          x ← node h n;
          let h := update (set_sel_try (sel_try x + length are_new)) n h in
          propagate_selection_path fuel' (parent x) are_new h
      end
  end.

Definition propagation (fuel : nat) (ROOT : handle) (n : handle)
    (traces : list (list Z)) (are_new : list bool) (h : heap) : result heap :=
  h ← propagate_selection_path fuel (Some n) are_new h;
  propagate_execution_traces fuel ROOT traces are_new h.

(** ** The run, against its external collaborators *)

Section Legion.
(** The symbolic executor: the successors of a state under one step, and
    the blank state at an address. *)
Variable symex : State → list State.
Variable blank_state : Z → State.
(** The instrumented binary: standard output, standard error and return
    code for an input. *)
Variable execute : list byte → list byte * list byte * Z.
(** The source of randomness behind [random.choice] and [os.urandom]. *)
Variable tape : nat → nat.
(** The floating-point value of a finite score. *)
Variable eval_uct : UCT → Q.

Variable cfg : Config.

(** *** Selection: [best_child] *)

Definition score_eqb (a b : Score) : bool :=
  match a, b with
  | NegInf, NegInf | PosInf, PosInf => true
  | Finite u, Finite v => Qeq_bool (eval_uct u) (eval_uct v)
  | _, _ => false
  end.

(** [a > b] *)
Definition score_gtb (a b : Score) : bool :=
  match a, b with
  | NegInf, _ | _, PosInf => false
  | _, NegInf | PosInf, _ => true
  | Finite u, Finite v => negb (Qle_bool (eval_uct u) (eval_uct v))
  end.

Fixpoint best_child_loop (cs : list handle) (max_score : Score)
    (candidates : list handle) (h : heap) : result (list handle) :=
  match cs with
  | [] => Ok candidates
  | child :: cs' =>
      cur_score ← score cfg child h;
      if score_eqb cur_score max_score
      then best_child_loop cs' max_score (candidates ++ [child]) h
      else if score_gtb cur_score max_score
      then best_child_loop cs' cur_score [child] h
      else best_child_loop cs' max_score candidates h
  end.

(** [random.choice] *)
Definition random_choice {A} (l : list A) (g : Globals)
  : option A * Globals :=
  (l !! (tape (RANDOM g) mod length l), set_RANDOM (S (RANDOM g)) g).

Definition best_child (n : handle) (g : Globals) (h : heap)
  : result (option handle * Globals) :=
  x ← node h n;
  candidates ← best_child_loop (dict_values (children x)) NegInf [] h;
  match candidates with
  | [] => Ok (None, g)
  | _ => Ok (random_choice candidates g)
  end.

Definition tree_policy := best_child.

(** *** The colouring protocol *)

(** [sim_state] *)
Definition sim_state (n : handle) (h : heap) : result (option State) :=
  x ← node h n;
  if is_colour R x then
    match dict_get Simulation (children x) with
    | None => Raise KeyError
    | Some s => y ← node h s; Ok (state y)
    end
  else Ok (state x).

(** The [while] loop of [symex_to_match]. *)
Fixpoint symex_to_match_loop (fuel : nat) (target_addr : Z)
    (child_states : list State) : result (list State) :=
  if bool_decide (child_states ≠ []) &&
     negb (bool_decide (target_addr ∈ st_addr <$> child_states))
  then
    match fuel with
    | 0 => OutOfFuel
    | S fuel' =>
        debug_assertion (bool_decide (length child_states = 1));;
        match child_states with
        | s :: _ => symex_to_match_loop fuel' target_addr (symex s)
        | [] => Raise IndexError
        end
    end
  else Ok child_states.

Definition symex_to_match (fuel : nat) (target : handle) (h : heap)
  : result (list State) :=
  x ← node h target;
  p ← match parent x with
      | Some p => Ok p
      | None => Raise AttributeError
      end;
  st ← sim_state p h;
  match st with
  | None => Raise AttributeError
  | Some st => symex_to_match_loop fuel (addr x) (symex st)
  end.

Fixpoint match_node_states (st : State) (cs : list handle) (h : heap)
  : result (bool * heap) :=
  match cs with
  | [] => Ok (false, h)
  | child :: cs' =>
      y ← node h child;
      if bool_decide (addr y ≠ st_addr st) then match_node_states st cs' h
      else
        h ← dye R (Some st) None child h;
        Ok (true, h)
  end.

Definition add_phantom (p : handle) (st : State) (h : heap) : result heap :=
  x ← node h p;
  debug_assertion (negb (dict_mem (KAddr (st_addr st)) (children x)));;
  let '(c, h) := alloc (TreeNode_init (st_addr st) (Some p)) h in
  h ← add_child (KAddr (st_addr st)) c p h;
  x ← node h p;
  c ← match dict_get (KAddr (st_addr st)) (children x) with
      | Some c => Ok c
      | None => Raise KeyError
      end;
  h ← dye R (Some st) None c h;
  x ← node h p;
  match dict_get (KAddr (st_addr st)) (children x) with
  | Some c => node h c;; Ok (update (set_phantom true) c h)
  | None => Raise KeyError
  end.

(** The handles in [l] of the nodes that are not Gold. *)
Fixpoint non_gold (l : list handle) (h : heap) : result (list handle) :=
  match l with
  | [] => Ok []
  | n :: l' =>
      x ← node h n;
      ns ← non_gold l' h;
      Ok (if is_colour G x then ns else n :: ns)
  end.

(** The [for] loop of [dye_siblings] over the sibling states. *)
Fixpoint dye_siblings_loop (sts : list State) (p : handle) (h : heap)
  : result heap :=
  match sts with
  | [] => Ok h
  | st :: sts' =>
      x ← node h p;
      cs ← non_gold (dict_values (children x)) h;
      '(matched, h) ← match_node_states st cs h;
      h ← (if matched : bool then Ok h else add_phantom p st h);
      dye_siblings_loop sts' p h
  end.

Definition dye_siblings (fuel : nat) (child : handle) (h : heap)
  : result heap :=
  sibling_states ← symex_to_match fuel child h;
  x ← node h child;
  p ← match parent x with
      | Some p => Ok p
      | None => Raise AttributeError
      end;
  match sibling_states with
  | [] =>
      let h := update (set_fully_explored true) child h in
      mark_fully_explored fuel p h
  | [st] =>
      debug_assertion (bool_decide (addr x = st_addr st));;
      dye B (Some st) None child h
  | _ =>
      h ← dye_siblings_loop sibling_states p h;
      xp ← node h p;
      cs ← nodes h (dict_values (children xp));
      debug_assertion
        (forallb (is_colour R) (filter (λ c, colour c ≠ G) cs));;
      Ok h
  end.

(** *** Simulation *)

(** [random_bytes]: [MAX_BYTES] calls of [os.urandom(1)]. *)
Fixpoint random_bytes (len : nat) (g : Globals) : list byte * Globals :=
  match len with
  | 0 => ([], g)
  | S len' =>
      let b := byte_of_Z (Z.of_nat (tape (RANDOM g)) mod 256) in
      let '(bs, g) := random_bytes len' (set_RANDOM (S (RANDOM g)) g) in
      (b :: bs, g)
  end.

Fixpoint random_fuzzing_loop (k : nat) (g : Globals)
  : list (list byte) * Globals :=
  match k with
  | 0 => ([], g)
  | S k' =>
      let '(bs, g) := random_bytes (MAX_BYTES cfg) g in
      let '(rest, g) := random_fuzzing_loop k' g in
      (bs :: rest, g)
  end.

Definition random_fuzzing (g : Globals) : list (list byte) * Globals :=
  random_fuzzing_loop (Z.to_nat (MIN_SAMPLES cfg)) g.

Definition mutate (fuel : nat) (n : handle) (g : Globals) (h : heap)
  : result (list (list byte) * Globals * heap) :=
  let g := set_SOLVING_COUNT (S (SOLVING_COUNT g)) g in
  x ← node h n;
  match state x with
  | Some st =>
      if bool_decide (st_constraints st ≠ []) then
        '(results, h) ← app_fuzzing cfg fuel n h;
        Ok (results, g, h)
      else let '(results, g) := random_fuzzing g in Ok (results, g, h)
  | None => let '(results, g) := random_fuzzing g in Ok (results, g, h)
  end.

Definition binary_execute (input_bytes : list byte) (g : Globals)
  : result (list Z * Globals) :=
  let '(_, error_msg, return_code) := execute input_bytes in
  let g := set_LAUNCHED (input_bytes :: LAUNCHED g) g in
  let g := if bool_decide (return_code = BUG_RET cfg)
           then set_FOUND_BUG true g else g in
  trace ← unpack error_msg;
  Ok (trace, g).

(** [[binary_execute(mutant) for mutant in mutants if not FOUND_BUG]] *)
Fixpoint simulation_loop (mutants : list (list byte)) (g : Globals)
  : result (list (list Z) * Globals) :=
  match mutants with
  | [] => Ok ([], g)
  | mutant :: mutants' =>
      if negb (FOUND_BUG g) then
        '(trace, g) ← binary_execute mutant g;
        '(traces, g) ← simulation_loop mutants' g;
        Ok (trace :: traces, g)
      else simulation_loop mutants' g
  end.

Definition simulation (fuel : nat) (n : option handle) (g : Globals)
    (h : heap) : result (list (list Z) * Globals * heap) :=
  '(mutants, g, h) ←
    match n with
    | Some n => mutate fuel n g h
    | None =>
        match SEEDS cfg with
        | [] => let '(ms, g) := random_fuzzing g in Ok (ms, g, h)
        | seeds => Ok (seeds, g, h)
        end
    end;
  '(traces, g) ← simulation_loop mutants g;
  Ok (traces, g, h).

(** *** Selection *)

(** The [while] loop of [selection], from the node [n]; [inner] bounds the
    loops of the calls it makes. *)
Fixpoint selection_loop (fuel inner : nat) (ROOT n : handle) (g : Globals)
    (h : heap) : result (handle * Globals * heap) :=
  x ← node h n;
  if is_colour G x then Ok (n, g, h) else
  match fuel with
  | 0 => OutOfFuel
  | S fuel' =>
      leaf ← is_leaf n h;
      h ← (if leaf : bool then mark_fully_explored inner n h else Ok h);
      x ← node h n;
      h ← (if is_colour W x then dye_siblings inner n h else Ok h);
      x ← node h n;
      h ← (if bool_decide (children x = []) then
             let h := update (set_fully_explored true) n h in
             match parent x with
             | Some p => mark_fully_explored inner p h
             | None => Raise AttributeError
             end
           else Ok h);
      x ← node h n;
      if fully_explored x then Ok (ROOT, g, h) else
      '(c, g) ← tree_policy n g h;
      match c with
      | None => Raise AssertionError
      | Some c => selection_loop fuel' inner ROOT c g h
      end
  end.

Definition selection (fuel : nat) (ROOT : handle) (g : Globals) (h : heap)
  : result (handle * Globals * heap) :=
  selection_loop fuel fuel ROOT ROOT g h.

(** *** One round, and the run *)

Definition mcts (fuel : nat) (ROOT : handle) (g : Globals) (h : heap)
  : result (Globals * heap) :=
  '(n, g, h) ← selection fuel ROOT g h;
  if bool_decide (n = ROOT) then Ok (g, h) else
  '(traces, g, h) ← simulation fuel (Some n) g h;
  '(are_new, h) ← expansion ROOT traces h;
  debug_assertion (bool_decide (length traces = length are_new));;
  h ← propagation fuel ROOT n traces are_new h;
  Ok (g, h).

(** [init_root]: zipping the traces and taking element 0 gives the first
    address of every trace; a missing or empty trace is an [IndexError]. *)
Fixpoint firsts (traces : list (list Z)) : result (list Z) :=
  match traces with
  | [] => Ok []
  | [] :: _ => Raise IndexError
  | (a :: _) :: traces' => fs ← firsts traces'; Ok (a :: fs)
  end.

Definition init_root (traces : list (list Z)) (h : heap)
  : result (handle * heap) :=
  fs ← firsts traces;
  match fs with
  | [] => Raise IndexError
  | main_addr :: _ =>
      debug_assertion (forallb (λ x, bool_decide (x = main_addr)) fs);;
      let '(root, h) := alloc (TreeNode_init main_addr None) h in
      h ← dye R (Some (blank_state main_addr)) None root h;
      Ok (root, h)
  end.

Definition initialisation (fuel : nat) (g : Globals) (h : heap)
  : result (handle * Globals * heap) :=
  '(traces, g, h) ← simulation fuel None g h;
  '(ROOT, h) ← init_root traces h;
  '(are_new, h) ← expansion ROOT traces h;
  r ← node h ROOT;
  s ← match dict_get Simulation (children r) with
      | Some s => Ok s
      | None => Raise KeyError
      end;
  h ← propagation fuel ROOT s traces are_new h;
  Ok (ROOT, g, h).

(** [a < b] where [b] may be [float('inf')]. *)
Definition below (a : nat) (b : option nat) : bool :=
  match b with
  | Some b => bool_decide (a < b)
  | None => true
  end.

Definition has_budget (ROOT : handle) (g : Globals) (h : heap)
  : result bool :=
  if negb (COVERAGE_ONLY cfg || negb (FOUND_BUG g)) then Ok false else
  r ← node h ROOT;
  if negb (below (sim_win r) (MAX_PATHS cfg)) then Ok false else
  s ← score cfg ROOT h;
  if negb (score_gtb s NegInf) then Ok false else
  Ok (below (CUR_ROUND cfg) (MAX_ROUNDS cfg)).

(** The loop of [run]: [while has_budget(): mcts()]. *)
Fixpoint run_loop (fuel inner : nat) (ROOT : handle) (g : Globals)
    (h : heap) : result (Globals * heap) :=
  b ← has_budget ROOT g h;
  if b : bool then
    match fuel with
    | 0 => OutOfFuel
    | S fuel' =>
        '(g, h) ← mcts inner ROOT g h;
        run_loop fuel' inner ROOT g h
    end
  else Ok (g, h).

(** The heap a run starts from holds the module-level [ROOT = TreeNode()]. *)
Definition initial_heap : heap := [TreeNode_init (-1) None].

Definition run (fuel : nat) : result (handle * Globals * heap) :=
  '(ROOT, g, h) ← initialisation fuel initial_globals initial_heap;
  '(g, h) ← run_loop fuel fuel ROOT g h;
  Ok (ROOT, g, h).
End Legion.

(** ** The runs of a program *)

Section reachable.
Variable symex : State → list State.
Variable blank_state : Z → State.
Variable execute : list byte → list byte * list byte * Z.
Variable tape : nat → nat.
Variable eval_uct : UCT → Q.
Variable cfg : Config.

(** The states of a run between two rounds: the root, the globals and the
    heap after [initialisation], and after every round of [mcts] from
    there. *)
Inductive reachable : handle → Globals → heap → Prop :=
| reachable_init fuel ROOT g h :
    initialisation blank_state execute tape cfg fuel
      initial_globals initial_heap = Ok (ROOT, g, h) →
    reachable ROOT g h
| reachable_round fuel ROOT g h g' h' :
    reachable ROOT g h →
    mcts symex execute tape eval_uct cfg fuel ROOT g h = Ok (g', h') →
    reachable ROOT g' h'.
End reachable.

(** ** Examples *)

(** A tree to try the operations on: a root at address 100, and the same
    root dyed Red with a state that has two models. *)
Definition example_state (a : Z) : State :=
  {| st_addr := a; st_constraints := [1%Z]; st_stdin_bits := 8;
     st_models := [Some 65%Z; None; Some 66%Z] |}.

Definition example_root : list TreeNode := [TreeNode_init 100 None].

Definition example_red_root : list TreeNode :=
  match dye R (Some (example_state 100)) None 0 example_root with
  | Ok h => h
  | _ => []
  end.

(** The Red root of the example after a first selection. *)
Definition example_selected : list TreeNode :=
  update (set_sel_try 1) 0 example_red_root.

(** A binary that traces the blocks 100 and 200 and returns the bug code
    when its input starts with the byte 0x42. *)
Definition example_execute (input : list byte) : list byte * list byte * Z :=
  ([],
   [x64; x00; x00; x00; x00; x00; x00; x00;
    xc8; x00; x00; x00; x00; x00; x00; x00],
   match input with
   | x42 :: _ => 100%Z
   | _ => 0%Z
   end).

Definition coverage_only_config : Config :=
  {| MIN_SAMPLES := 5; MAX_SAMPLES := 100; TIME_COEFF := 0%Q;
     MAX_BYTES := 100; MAX_PATHS := None; MAX_ROUNDS := None;
     CUR_ROUND := 0; COVERAGE_ONLY := true; SEEDS := []; BUG_RET := 100 |}.

(** A run with [--min-samples 1] on [example_execute]: the symbolic executor
    steps from block 100 to block 200 and ends there. *)
Definition example_symex (st : State) : list State :=
  if (st_addr st =? 100)%Z then [example_state 200] else [].

Definition min_samples_one_config : Config :=
  {| MIN_SAMPLES := 1; MAX_SAMPLES := 100; TIME_COEFF := 0%Q;
     MAX_BYTES := 2; MAX_PATHS := None; MAX_ROUNDS := None;
     CUR_ROUND := 0; COVERAGE_ONLY := false; SEEDS := []; BUG_RET := 100 |}.

Definition example_initialised : nat * Globals * list TreeNode :=
  match initialisation example_state example_execute (λ n, n)
          min_samples_one_config 10 initial_globals initial_heap with
  | Ok r => r
  | _ => (0, initial_globals, [])
  end.

Definition example_sampled : list (list byte) * list TreeNode :=
  match app_fuzzing default_config 5 1 example_red_root with
  | Ok r => r
  | _ => ([], [])
  end.

Definition example_gold : TreeNode :=
  default (TreeNode_init 0 None) (example_red_root !! 1).

(** A run with two samples of two bytes per round. *)
Definition small_config : Config :=
  {| MIN_SAMPLES := 2; MAX_SAMPLES := 4; TIME_COEFF := 0%Q;
     MAX_BYTES := 2; MAX_PATHS := None; MAX_ROUNDS := None;
     CUR_ROUND := 0; COVERAGE_ONLY := false; SEEDS := []; BUG_RET := 100 |}.

Definition example_start : nat * Globals * list TreeNode :=
  match initialisation example_state example_execute (λ n, n)
          small_config 10 initial_globals initial_heap with
  | Ok r => r
  | _ => (0, initial_globals, [])
  end.

Definition example_round : Globals * list TreeNode :=
  match mcts example_symex example_execute (λ n, n) exploit small_config 10
          example_start.1.1 example_start.1.2 example_start.2 with
  | Ok r => r
  | _ => (initial_globals, [])
  end.

(** A symbolic executor that ends at once, and one that branches at block
    100 to the blocks 200 and 300. *)
Definition example_dead_symex (st : State) : list State := [].

Definition example_branch_symex (st : State) : list State :=
  if (st_addr st =? 100)%Z then [example_state 200; example_state 300]
  else [].

Definition example_dyed : list TreeNode :=
  match dye_siblings example_branch_symex 5 3 example_start.2 with
  | Ok h => h
  | _ => []
  end.

(** The White node at block 200 of [example_start]. *)
Definition example_white : TreeNode :=
  default (TreeNode_init 0 None) (example_start.2 !! 3).



(** The selection of a first round from [example_start], with the
    branching symbolic executor. *)
Definition example_selection : nat * Globals * list TreeNode :=
  match selection example_branch_symex (λ n, n) exploit small_config 5
          example_start.1.1 example_start.1.2 example_start.2 with
  | Ok r => r
  | _ => (0, initial_globals, [])
  end.
(** * Properties *)

(** ** The monad and the arena *)

Lemma bind_Ok {A B} (m : result A) (f : A → result B) (b : B) :
  m ≫= f = Ok b → ∃ a, m = Ok a ∧ f a = Ok b.
Proof. destruct m; simpl; intros; eauto; discriminate. Qed.

Lemma debug_assertion_Ok (b : bool) (u : unit) :
  debug_assertion b = Ok u → b = true.
Proof. destruct b; simpl; intros; [done | discriminate]. Qed.

Lemma node_Ok (h : heap) (n : handle) (x : TreeNode) :
  node h n = Ok x ↔ h !! n = Some x.
Proof. unfold node. destruct (h !! n); split; intros; simplify_eq; done. Qed.

Lemma node_lt (h : heap) (n : handle) (x : TreeNode) :
  node h n = Ok x → n < length h.
Proof. intros Hn%node_Ok. by eapply lookup_lt_Some. Qed.

Lemma update_length f n (h : heap) : length (update f n h) = length h.
Proof. apply length_alter. Qed.

Lemma update_lookup f n (h : heap) i :
  update f n h !! i = if decide (n = i) then f <$> h !! i else h !! i.
Proof.
  unfold update. case_decide as E.
  - subst. apply list_lookup_alter_eq.
  - by apply list_lookup_alter_ne.
Qed.

Lemma update_lookup_Some f n (h : heap) i y :
  update f n h !! i = Some y →
  ∃ x, h !! i = Some x ∧ (y = x ∨ (i = n ∧ y = f x)).
Proof.
  rewrite update_lookup. case_decide; [|by eauto].
  destruct (h !! i) eqn:E; simpl; intros; simplify_eq. eauto.
Qed.

Lemma alloc_lookup_old (x : TreeNode) (h : heap) i y :
  h !! i = Some y → (alloc x h).2 !! i = Some y.
Proof. simpl. apply lookup_app_l_Some. Qed.

(** Peels the binds of a computation known to have returned. *)
Ltac inv_result :=
  repeat match goal with
  | H : Ok _ = Ok _ |- _ => injection H as H; try subst
  | H : Raise _ = Ok _ |- _ => discriminate H
  | H : OutOfFuel = Ok _ |- _ => discriminate H
  | H : mret _ = Ok _ |- _ => injection H as H; try subst
  | H : _ ≫= _ = Ok _ |- _ =>
      let a := fresh "a" in
      let Ha := fresh "Ha" in
      apply bind_Ok in H as (a & Ha & H)
  | H : debug_assertion _ = Ok _ |- _ => apply debug_assertion_Ok in H
  end.

(** ** Expansion: [match_child] and [integrate_path] *)

Lemma add_child_spec k c n h h' :
  add_child k c n h = Ok h' →
  ∃ x, h !! n = Some x ∧
       h' = update (set_children (dict_set k c (children x))) n h.
Proof.
  unfold add_child. intros H. inv_result.
  apply node_Ok in Ha1. eauto.
Qed.

Lemma match_child_spec a n h b c h' :
  match_child a n h = Ok (b, c, h') →
  ∃ x, h !! n = Some x ∧
    ((∃ y, dict_get (KAddr a) (children x) = Some c ∧ h !! c = Some y ∧
           b = phantom y ∧ h' = update (set_phantom false) c h)
     ∨ (dict_get (KAddr a) (children x) = None ∧ b = true ∧ c = length h ∧
        h' = update (set_children (dict_set (KAddr a) c (children x))) n
               (h ++ [TreeNode_init a (Some n)]))).
Proof.
  unfold match_child. intros H. inv_result.
  apply node_Ok in Ha. exists a0. split; [done|].
  destruct (dict_get (KAddr a) (children a0)) as [c'|] eqn:E.
  - inv_result. apply node_Ok in Ha0. left. eauto.
  - simpl in H. inv_result. right.
    apply add_child_spec in Ha0 as (x & Hx & ->).
    rewrite lookup_app_l in Hx by (by eapply lookup_lt_Some).
    simplify_eq. done.
Qed.

(** Phantoms are nodes no trace has reached yet: they have never been
    simulated and have no block child. *)
Definition phantom_inv (h : heap) : Prop :=
  ∀ n x, h !! n = Some x → phantom x = true →
    sim_try x = 0 ∧ ∀ a, dict_get (KAddr a) (children x) = None.

(** What the walk of [integrate_path] keeps of the heap [h0] it started
    from. *)
Record walk_rel (h0 h : heap) : Prop := {
  wr_len : length h0 ≤ length h;
  wr_old : ∀ i x, h0 !! i = Some x →
    ∃ y, h !! i = Some y ∧ sim_try y = sim_try x ∧
         (phantom y = true → phantom x = true) ∧
         (length h = length h0 → children y = children x)
}.

Lemma walk_rel_refl h : walk_rel h h.
Proof. split; [done|]. intros i x Hx. exists x. done. Qed.

Lemma match_child_walk_rel h0 a n h b c h' :
  walk_rel h0 h → match_child a n h = Ok (b, c, h') →
  walk_rel h0 h' ∧ c < length h' ∧
  (length h = length h' ∨ (length h < length h' ∧ b = true)) ∧
  (length h = length h' →
     ∃ x y, h !! n = Some x ∧ dict_get (KAddr a) (children x) = Some c ∧
            h !! c = Some y ∧ b = phantom y).
Proof.
  intros [Hlen Hold] (x & Hx & [(y & Hget & Hy & -> & ->)|(Hget & -> & -> & ->)])
    %match_child_spec.
  - rewrite !update_length. split_and!.
    + split; [by rewrite update_length|].
      intros i z Hz. destruct (Hold i z Hz) as (z' & Hz' & ? & ? & ?).
      rewrite update_length, update_lookup, Hz'.
      case_decide; subst; eexists; (split; [done|]); simpl; eauto.
      split_and!; [done|discriminate|done].
    + by eapply lookup_lt_Some.
    + by left.
    + intros _. exists x, y. done.
  - rewrite !update_length, !length_app. simpl. split_and!.
    + split; [rewrite update_length, length_app; simpl; lia|].
      intros i z Hz. destruct (Hold i z Hz) as (z' & Hz' & ? & ? & ?).
      rewrite update_length, length_app, update_lookup.
      rewrite (lookup_app_l_Some _ _ _ _ Hz'). simpl.
      case_decide; subst; eexists; (split; [done|]); simpl;
        (split_and!; [done|done|lia]).
    + lia.
    + right. split; [lia|done].
    + lia.
Qed.

Lemma integrate_walk_spec h0 tr : ∀ n is_new h t b h',
  phantom_inv h0 → walk_rel h0 h → n < length h →
  (is_new = true →
     length h0 < length h ∨ ∃ x, h0 !! n = Some x ∧ phantom x = true) →
  (length h0 < length h → is_new = true) →
  integrate_walk tr n is_new h = Ok (t, b, h') →
  walk_rel h0 h' ∧ t < length h' ∧
  (b = true →
     length h0 < length h' ∨ ∃ x, h0 !! t = Some x ∧ phantom x = true) ∧
  (length h0 < length h' → b = true).
Proof.
  induction tr as [|a tr IH]; intros n is_new h t b h' Hinv Hrel Hn Hnew Hcr H;
    simpl in H.
  - by inv_result.
  - apply bind_Ok in H as ([[new_child child] h1] & Ha & H).
    pose proof (match_child_walk_rel _ _ _ _ _ _ _ Hrel Ha)
      as (Hrel1 & Hc & Hlen & Hsame).
    eapply IH in H; [exact H|done|done|done|..].
    + intros Hor. destruct Hlen as [Heq|[Hlt _]];
        [|left; pose proof (wr_len _ _ Hrel); lia].
      destruct (Hsame Heq) as (x & y & Hx & Hget & Hy & ->).
      destruct (decide (length h0 < length h)) as [|Hnc]; [left; lia|].
      pose proof (wr_len _ _ Hrel) as Hle.
      assert (length h = length h0) as Hl0 by lia.
      destruct (is_new) eqn:Eis.
      * (* a phantom was consumed just before: it has no child at [a] *)
        destruct Hnew as [?|(x0 & Hx0 & Hph)]; [done|lia|].
        destruct (wr_old _ _ Hrel _ _ Hx0) as (x' & Hx' & _ & _ & Hch).
        simplify_eq. rewrite (Hch Hl0) in Hget.
        destruct (Hinv _ _ Hx0 Hph) as [_ Hnone]. by rewrite Hnone in Hget.
      * simpl in Hor. right.
        assert (child < length h0) as Hchild
          by (rewrite <- Hl0; by eapply lookup_lt_Some).
        apply lookup_lt_is_Some_2 in Hchild as [y0 Hy0].
        destruct (wr_old _ _ Hrel _ _ Hy0) as (y' & Hy' & _ & Hph & _).
        simplify_eq. eauto.
    + intros Hlt. destruct Hlen as [Heq|[_ ->]]; [|by rewrite orb_true_r].
      rewrite Hcr; [done|lia].
Qed.

Lemma example_red_root_phantom_inv : phantom_inv example_red_root.
Proof.
  intros [|[|[|n]]] x Hx Hph; vm_compute in Hx; simplify_eq;
    discriminate Hph.
Qed.

(** C3. A trace integrated by [integrate_path] is reported as a new path
    exactly when a child was created during its walk from the root (the arena
    grew) or the terminal node [t] of the walk had [sim_try = 0] when the
    integration started; and the terminal node's [sim_try] is at least 1
    afterwards.  The tree the trace is integrated into is one of a run:
    its phantoms have not been reached by a trace yet ([phantom_inv]). *)
Theorem integrate_path_new_path ROOT trace h b h' :
  phantom_inv h →
  integrate_path ROOT trace h = Ok (b, h') →
  ∃ t is_new hw,
    integrate_walk (tail trace) ROOT false h = Ok (t, is_new, hw) ∧
    (b = true ↔
       length h < length h' ∨ ∃ x, h !! t = Some x ∧ sim_try x = 0) ∧
    ∃ y, h' !! t = Some y ∧ 1 ≤ sim_try y.
Proof.
  intros Hinv H. destruct trace as [|a0 rest]; [discriminate|].
  simpl in H. apply bind_Ok in H as (r & Hr & H).
  apply bind_Ok in H as (u & _ & H).
  apply bind_Ok in H as ([[t is_new] hw] & Hwalk & H).
  apply bind_Ok in H as (x & Hx%node_Ok & H). simplify_eq.
  exists t, is_new, hw. split; [done|].
  apply node_lt in Hr.
  eapply integrate_walk_spec in Hwalk as (Hrel & Ht & Hnew & Hcr);
    [|done|apply walk_rel_refl|done|discriminate|lia].
  rewrite update_length. split.
  - split.
    + intros [Hn | Hz%bool_decide_eq_true]%orb_true_iff.
      * destruct (Hnew Hn) as [?|(x0 & Hx0 & Hph)]; [by left|].
        right. exists x0. split; [done|]. by apply (Hinv t).
      * destruct (decide (t < length h)) as [Hlt|Hge].
        -- apply lookup_lt_is_Some_2 in Hlt as [x0 Hx0].
           destruct (wr_old _ _ Hrel _ _ Hx0) as (y & Hy & Hs & _).
           simplify_eq. right. exists x0. split; [done|lia].
        -- left. lia.
    + intros [Hlt | (x0 & Hx0 & Hz)].
      * by rewrite (Hcr Hlt).
      * destruct (wr_old _ _ Hrel _ _ Hx0) as (y & Hy & Hs & _).
        simplify_eq. apply orb_true_iff. right.
        apply bool_decide_eq_true. lia.
  - rewrite update_lookup, Hx. rewrite decide_True by done. simpl.
    eexists. split; [done|]. simpl. case_bool_decide; lia.
Qed.

Lemma integrate_path_new_path_witness :
  ∃ t is_new hw,
    integrate_walk [200%Z] 0 false example_red_root = Ok (t, is_new, hw) ∧
    (true = true ↔
       length example_red_root < 3 ∨
       ∃ x, example_red_root !! t = Some x ∧ sim_try x = 0) ∧
    ∃ y, (update (set_sim_try 1) 2
            (update (set_children [(Simulation, 1); (KAddr 200, 2)]) 0
               (example_red_root ++ [TreeNode_init 200 (Some 0)])))
           !! t = Some y ∧ 1 ≤ sim_try y.
Proof.
  apply (integrate_path_new_path 0 [100%Z; 200%Z] example_red_root true
           (update (set_sim_try 1) 2
              (update (set_children [(Simulation, 1); (KAddr 200, 2)]) 0
                 (example_red_root ++ [TreeNode_init 200 (Some 0)])))).
  - exact example_red_root_phantom_inv.
  - vm_compute. reflexivity.
Defined.

(** ** [mark_fully_explored] *)

Lemma nodes_all_explored (h : list TreeNode) (l : list nat) cs :
  nodes h l = Ok cs →
  forallb fully_explored (filter (λ c, colour c ≠ G) cs) = true ↔
  ∀ c y, c ∈ l → h !! c = Some y → colour y ≠ G → fully_explored y = true.
Proof.
  revert cs. induction l as [|n l IH]; intros cs H; simpl in H.
  - inv_result. simpl. split; [|done]. intros _ c y Hc. by apply elem_of_nil in Hc.
  - apply bind_Ok in H as (x & Hx%node_Ok & H).
    apply bind_Ok in H as (xs & Hxs & H). inv_result.
    specialize (IH _ Hxs). rewrite filter_cons. split.
    + intros Hall c y [->|Hc]%elem_of_cons Hy Hcol.
      * simplify_eq. rewrite decide_True in Hall by done.
        simpl in Hall. by apply andb_true_iff in Hall as [? _].
      * eapply (proj1 IH); [|done..]. case_decide; [|done].
        simpl in Hall. by apply andb_true_iff in Hall as [_ ?].
    + intros Hall.
      assert (forallb fully_explored (filter (λ c, colour c ≠ G) xs) = true)
        as Hrest.
      { apply (proj2 IH). intros c y Hc. apply Hall. by right. }
      case_decide; [|done]. simpl. rewrite Hrest, andb_true_r.
      apply (Hall n x); [by left|done..].
Qed.

Lemma nodes_some_unexplored (h : list TreeNode) (l : list nat) cs :
  nodes h l = Ok cs →
  forallb fully_explored (filter (λ c, colour c ≠ G) cs) = false →
  ∃ c y, c ∈ l ∧ h !! c = Some y ∧ colour y ≠ G ∧ fully_explored y = false.
Proof.
  revert cs. induction l as [|n l IH]; intros cs H; simpl in H.
  - inv_result. discriminate.
  - apply bind_Ok in H as (x & Hx%node_Ok & H).
    apply bind_Ok in H as (xs & Hxs & H). inv_result.
    rewrite filter_cons. intros Hall.
    destruct (decide (colour x ≠ G)) as [Hcol|];
      [simpl in Hall; destruct (fully_explored x) eqn:E|].
    + destruct (IH _ Hxs Hall) as (c & y & Hc & Hy). exists c, y.
      split; [by right|done].
    + exists n, x. split; [by left|done].
    + destruct (IH _ Hxs Hall) as (c & y & Hc & Hy). exists c, y.
      split; [by right|done].
Qed.

(** A node may not be marked when it is White, has a block child that is not
    marked, or is Red and has never been selected. *)
Definition ineligible (h : list TreeNode) (x : TreeNode) : Prop :=
  colour x = W ∨
  (∃ c y, c ∈ dict_values (children x) ∧ h !! c = Some y ∧
          colour y ≠ G ∧ fully_explored y = false) ∨
  (colour x = R ∧ sel_try x = 0).

(** [h'] is [h] with some more nodes marked, and nothing else changed. *)
Definition marks_only (h h' : list TreeNode) : Prop :=
  length h' = length h ∧
  ∀ i x, h !! i = Some x →
    ∃ b, h' !! i = Some (set_fully_explored b x) ∧
         (fully_explored x = true → b = true).

Lemma set_fully_explored_id x : set_fully_explored (fully_explored x) x = x.
Proof. by destruct x. Qed.

Lemma marks_only_refl h : marks_only h h.
Proof.
  split; [done|]. intros i x Hx. exists (fully_explored x).
  by rewrite set_fully_explored_id.
Qed.

Lemma marks_only_trans h1 h2 h3 :
  marks_only h1 h2 → marks_only h2 h3 → marks_only h1 h3.
Proof.
  intros [L1 H1] [L2 H2]. split; [congruence|].
  intros i x Hx. destruct (H1 i x Hx) as (b & Hb & Hm).
  destruct (H2 _ _ Hb) as (b' & Hb' & Hm'). exists b'. split; [done|].
  simpl in Hm'. auto.
Qed.

Lemma marks_only_update n h :
  marks_only h (update (set_fully_explored true) n h).
Proof.
  split; [apply update_length|]. intros i x Hx.
  rewrite update_lookup, Hx. case_decide.
  - by exists true.
  - exists (fully_explored x). by rewrite set_fully_explored_id.
Qed.

Lemma marks_only_lookup h h' i x' :
  marks_only h h' → h' !! i = Some x' →
  ∃ x b, h !! i = Some x ∧ x' = set_fully_explored b x ∧
         (fully_explored x = true → b = true).
Proof.
  intros [L H] Hx'. pose proof (lookup_lt_Some _ _ _ Hx') as Hlt.
  rewrite L in Hlt. apply lookup_lt_is_Some_2 in Hlt as [x Hx].
  destruct (H i x Hx) as (b & Hb & Hm). simplify_eq. eauto.
Qed.

(** The Simulation child of a Red node is Gold (invariant 1 of the data
    model). *)
Definition sim_gold (h : list TreeNode) : Prop :=
  ∀ r x g, h !! r = Some x → colour x = R →
    dict_get Simulation (children x) = Some g →
    ∃ y, h !! g = Some y ∧ colour y = G.

Lemma sim_gold_marks_only h h' : marks_only h h' → sim_gold h → sim_gold h'.
Proof.
  intros Hm Hs r x' g Hx' Hcol Hget.
  destruct (marks_only_lookup _ _ _ _ Hm Hx') as (x & b0 & Hx & -> & _).
  destruct (Hs r x g Hx Hcol Hget) as (y & Hy & Hg).
  destruct (proj2 Hm _ _ Hy) as (b & Hb & _). eauto.
Qed.

(** One call of the method, unfolded: either the node is not eligible and
    the heap is returned as it is, or the node (and the Simulation child of
    a Red node) is marked and the call goes on with the parent. *)
Lemma mark_fully_explored_step fuel n h h' :
  mark_fully_explored (S fuel) n h = Ok h' →
  ∃ x, h !! n = Some x ∧
    ((ineligible h x ∧ h' = h) ∨
     (colour x ≠ W ∧
      (∀ c y, c ∈ dict_values (children x) → h !! c = Some y →
              colour y ≠ G → fully_explored y = true) ∧
      ¬ (colour x = R ∧ sel_try x = 0) ∧
      ∃ h2,
        (if decide (colour x = R) then
           ∃ g, dict_get Simulation (children x) = Some g ∧
                g < length h ∧
                h2 = update (set_fully_explored true) g
                       (update (set_fully_explored true) n h)
         else h2 = update (set_fully_explored true) n h) ∧
        match parent x with
        | Some p => mark_fully_explored fuel p h2 = Ok h'
        | None => h' = h2
        end)).
Proof.
  simpl. intros H. apply bind_Ok in H as (x & Hx%node_Ok & H).
  exists x. split; [done|]. unfold is_colour in H.
  case_bool_decide as HW; [injection H as <-; left; split; [by left|done]|].
  apply bind_Ok in H as (cs & Hcs & H).
  pose proof (nodes_all_explored _ _ _ Hcs) as Hall.
  destruct (forallb fully_explored (filter (λ c, colour c ≠ G) cs)) eqn:Eall;
    simpl in H.
  2:{ injection H as <-. left. split; [|done]. right. left.
      by eapply nodes_some_unexplored. }
  assert (¬ (colour x = R ∧ sel_try x = 0) →
          ∃ h2, (if bool_decide (colour x = R) then
                   match dict_get Simulation (children x) with
                   | None => Raise KeyError
                   | Some g =>
                       node (update (set_fully_explored true) n h) g;;
                       Ok (update (set_fully_explored true) g
                             (update (set_fully_explored true) n h))
                   end
                 else Ok (update (set_fully_explored true) n h)) = Ok h2 ∧
                match parent x with
                | Some p => mark_fully_explored fuel p h2 = Ok h'
                | None => Ok h2 = Ok h'
                end) as Hgo.
  { intros Hne. case_bool_decide as Hsel; simpl in H.
    - case_bool_decide as HR; [tauto|].
      apply bind_Ok in H as (h2 & Hh2 & H). exists h2. split; [done|].
      by destruct (parent x).
    - apply bind_Ok in H as (h2 & Hh2 & H). exists h2. split; [done|].
      by destruct (parent x). }
  destruct (decide (colour x = R ∧ sel_try x = 0)) as [[HR Hsel]|Hne].
  { rewrite bool_decide_eq_true_2 in H by done.
    rewrite bool_decide_eq_true_2 in H by done. simpl in H.
    injection H as <-. left. split; [|done]. right. by right. }
  destruct (Hgo Hne) as (h2 & Hh2 & Hp). clear Hgo H.
  right. split_and!; [done|by apply Hall|done|]. exists h2. split.
  - case_bool_decide as HR.
    + rewrite decide_True by done.
      destruct (dict_get Simulation (children x)) as [g|]; [|done].
      apply bind_Ok in Hh2 as (y & Hy%node_lt & Hh2). inv_result.
      rewrite update_length in Hy. eauto.
    + rewrite decide_False by done. by inv_result.
  - destruct (parent x); [done|]. by inv_result.
Qed.

Lemma mark_fully_explored_marks_only fuel : ∀ n h h',
  mark_fully_explored fuel n h = Ok h' → marks_only h h'.
Proof.
  induction fuel as [|fuel IH]; intros n h h' H; [discriminate|].
  apply mark_fully_explored_step in H
    as (x & Hx & [[_ ->]|(_ & _ & _ & h2 & Hh2 & Hp)]);
    [apply marks_only_refl|].
  assert (marks_only h h2) as H12.
  { case_decide.
    - destruct Hh2 as (g & _ & _ & ->).
      eapply marks_only_trans; apply marks_only_update.
    - subst. apply marks_only_update. }
  destruct (parent x) as [p|]; [|by subst].
  eapply marks_only_trans; [done|]. by eapply IH.
Qed.

(** The outcome of an attempt to mark [p]: it is marked, or it was not
    eligible. *)
Definition attempted (h : list TreeNode) (p : nat) : Prop :=
  ∃ xp, h !! p = Some xp ∧ (fully_explored xp = true ∨ ineligible h xp).

Lemma mark_fully_explored_attempted fuel p h h' :
  mark_fully_explored fuel p h = Ok h' → attempted h' p.
Proof.
  destruct fuel as [|fuel]; [discriminate|]. intros H.
  pose proof (mark_fully_explored_marks_only _ _ _ _ H) as Hm.
  apply mark_fully_explored_step in H
    as (x & Hx & [[Hin ->]|(_ & _ & _ & h2 & Hh2 & Hp)]).
  { exists x. split; [done|by right]. }
  assert (∃ x2, h2 !! p = Some x2 ∧ fully_explored x2 = true ∧
                marks_only h2 h') as (x2 & Hx2 & Hf & H2).
  { assert (∃ x2, h2 !! p = Some x2 ∧ fully_explored x2 = true)
      as (x2 & Hx2 & Hf).
    { case_decide.
      - destruct Hh2 as (g & _ & _ & ->).
        rewrite !update_lookup, Hx. repeat case_decide; simpl; eauto.
      - subst. rewrite update_lookup, Hx, decide_True by done. simpl. eauto. }
    exists x2. split_and!; [done..|].
    destruct (parent x); [by eapply mark_fully_explored_marks_only|].
    subst. apply marks_only_refl. }
  destruct (proj2 H2 _ _ Hx2) as (b & Hb & Htrue).
  eexists. split; [done|]. left. simpl. auto.
Qed.

Definition marked_directly (h' : list TreeNode) (x : TreeNode) : Prop :=
  (∀ c y, c ∈ dict_values (children x) → h' !! c = Some y →
          colour y ≠ G → fully_explored y = true) ∧
  (colour x = R →
     ∃ g y, dict_get Simulation (children x) = Some g ∧
            h' !! g = Some y ∧ fully_explored y = true) ∧
  (∀ p, parent x = Some p → attempted h' p).

Definition marked_as_simulation (h' : list TreeNode) (m : nat) : Prop :=
  ∃ r xr, h' !! r = Some xr ∧ colour xr = R ∧ fully_explored xr = true ∧
          dict_get Simulation (children xr) = Some m.

(** C2. The eligibility rules of [mark_fully_explored].  For every node [m]
    that a call marks (its flag goes from false to true): [m] is not White;
    if [m] is Red, its [sel_try] is not 0; and either [m] was marked as the
    node the method ran on, in which case every non-Gold child of [m] is
    marked, the Simulation child of [m] is marked too when [m] is Red, and
    the parent of [m] was attempted in turn (it is marked, or it was not
    eligible), or [m] is the Simulation child of a Red node that was
    marked. *)
Theorem mark_fully_explored_rules fuel : ∀ n h h',
  sim_gold h →
  mark_fully_explored fuel n h = Ok h' →
  ∀ m x x', h !! m = Some x → h' !! m = Some x' →
    fully_explored x = false → fully_explored x' = true →
    colour x ≠ W ∧ (colour x = R → sel_try x ≠ 0) ∧
    (marked_directly h' x ∨ marked_as_simulation h' m).
Proof.
  induction fuel as [|fuel IH]; intros n h h' Hsg H m x x' Hx Hx' Hf Hf';
    [discriminate|].
  pose proof (mark_fully_explored_marks_only _ _ _ _ H) as Hm.
  apply mark_fully_explored_step in H
    as (x0 & Hx0 & [[_ ->]|(HW & Hch & Hsel & h2 & Hh2 & Hp)]).
  { simplify_eq. congruence. }
  assert (marks_only h h2) as H12.
  { case_decide.
    - destruct Hh2 as (g & _ & _ & ->).
      eapply marks_only_trans; apply marks_only_update.
    - subst. apply marks_only_update. }
  assert (marks_only h2 h') as H2'.
  { destruct (parent x0); [by eapply mark_fully_explored_marks_only|].
    subst. apply marks_only_refl. }
  destruct (proj2 H12 _ _ Hx) as (b2 & Hx2 & _).
  destruct b2.
  2:{ (* [m] is marked further up the parent chain *)
    destruct (parent x0) as [p|] eqn:Ep; [|simplify_eq; done].
    eapply (IH p h2 h' (sim_gold_marks_only _ _ H12 Hsg) Hp m) in Hx' as Hgoal;
      [|done..].
    exact Hgoal. }
  (* [m] is marked by this very call: it is [n] or the Simulation child *)
  assert (m = n ∨
          (m ≠ n ∧ colour x0 = R ∧ dict_get Simulation (children x0) = Some m))
    as [->|(Hne & HR & Hget)].
  { case_decide as HR.
    - destruct Hh2 as (g & Hget & _ & ->).
      rewrite !update_lookup, Hx in Hx2.
      destruct (decide (n = m)) as [|Hne]; [by left|]. right.
      destruct (decide (g = m)) as [->|]; [done|].
      injection Hx2 as Hx2. apply (f_equal fully_explored) in Hx2.
      simpl in Hx2. congruence.
    - subst. rewrite update_lookup, Hx in Hx2.
      destruct (decide (n = m)) as [|Hne]; [by left|].
      injection Hx2 as Hx2. apply (f_equal fully_explored) in Hx2.
      simpl in Hx2. congruence. }
  - simplify_eq. split_and!; [done|tauto|]. left. split_and!.
    + intros c y' Hc Hy' Hcol.
      destruct (marks_only_lookup _ _ _ _ Hm Hy') as (y & b & Hy & -> & Hb).
      simpl. apply Hb. by eapply Hch.
    + intros HR. rewrite decide_True in Hh2 by done.
      destruct Hh2 as (g & Hget & Hg & ->).
      apply lookup_lt_is_Some_2 in Hg as [y Hy].
      assert (∃ y2, update (set_fully_explored true) g
                 (update (set_fully_explored true) n h) !! g = Some y2 ∧
               fully_explored y2 = true) as (y2 & Hy2 & Hfy2).
      { rewrite !update_lookup, Hy, decide_True by done.
        case_decide; simpl; eauto. }
      destruct (proj2 H2' _ _ Hy2) as (b & Hb & Htrue).
      exists g. eexists. split_and!; [done..|]. simpl. auto.
    + intros p Hpar. rewrite Hpar in Hp.
      by eapply mark_fully_explored_attempted.
  - destruct (Hsg _ _ _ Hx0 HR Hget) as (y & Hy & HG). simplify_eq.
    split_and!; [congruence|congruence|]. right.
    assert (∃ x2, h2 !! n = Some x2 ∧ x2 = set_fully_explored true x0)
      as (x2 & Hn2 & ->).
    { rewrite decide_True in Hh2 by done. destruct Hh2 as (g & Hg & _ & ->).
      assert (g = m) as -> by congruence.
      rewrite update_lookup, decide_False by done.
      rewrite update_lookup, decide_True by done.
      rewrite Hx0. simpl. eauto. }
    destruct (proj2 H2' _ _ Hn2) as (b & Hb & Htrue).
    exists n. eexists. split_and!; [done|done|simpl; auto|done].
Qed.

Lemma example_selected_sim_gold : sim_gold example_selected.
Proof.
  intros [|[|[|r]]] x g Hx HR Hget; vm_compute in Hx; simplify_eq;
    vm_compute in Hget; simplify_eq; try discriminate HR.
  eexists. split; [reflexivity|done].
Qed.

Lemma mark_fully_explored_rules_witness :
  ∃ h' x x',
    mark_fully_explored 2 1 example_selected = Ok h' ∧
    example_selected !! 0 = Some x ∧ h' !! 0 = Some x' ∧
    fully_explored x = false ∧ fully_explored x' = true ∧
    colour x ≠ W ∧ (colour x = R → sel_try x ≠ 0) ∧
    (marked_directly h' x ∨ marked_as_simulation h' 0).
Proof.
  eexists _, _, _.
  split; [vm_compute; reflexivity|].
  split; [reflexivity|]. split; [reflexivity|].
  split; [reflexivity|]. split; [reflexivity|].
  eapply (mark_fully_explored_rules 2 1 example_selected _
            example_selected_sim_gold eq_refl 0 _ _ eq_refl eq_refl
            eq_refl eq_refl).
Defined.

(** ** The Runner: decoding the trace *)

Lemma little_endian_bound bs :
  (0 ≤ little_endian bs < 256 ^ Z.of_nat (length bs))%Z.
Proof.
  induction bs as [|b bs IH]; simpl length; simpl little_endian; [lia|].
  rewrite Nat2Z.inj_succ, Z.pow_succ_r by lia.
  pose proof (Byte.to_N_bounded b) as Hb. nia.
Qed.

Lemma unpack_from_q_spec output offset :
  offset + 8 ≤ length output →
  ∃ v, unpack_from_q output offset = Ok [v] ∧
       (- 2 ^ 63 ≤ v < 2 ^ 63)%Z ∧
       (v mod 2 ^ 64 = little_endian (take 8 (drop offset output)))%Z.
Proof.
  intros Hlen. unfold unpack_from_q.
  assert (length (take 8 (drop offset output)) = 8) as Hl.
  { rewrite length_take, length_drop. lia. }
  rewrite decide_True by done.
  pose proof (little_endian_bound (take 8 (drop offset output))) as Hb.
  rewrite Hl in Hb. change (256 ^ Z.of_nat 8)%Z with (2 ^ 64)%Z in Hb.
  eexists. split; [done|].
  destruct (Z.ltb_spec (little_endian (take 8 (drop offset output))) (2 ^ 63)).
  - split; [lia|]. apply Z.mod_small. lia.
  - split; [lia|].
    symmetry. apply (Z.mod_unique _ _ (-1)); lia.
Qed.

Lemma unpack_loop_spec output k : ∀ start,
  (start + k) * 8 ≤ length output →
  ∃ trace, unpack_loop output (seq start k) = Ok trace ∧
    length trace = k ∧
    ∀ i v, trace !! i = Some v →
      (- 2 ^ 63 ≤ v < 2 ^ 63)%Z ∧
      (v mod 2 ^ 64 =
       little_endian (take 8 (drop ((start + i) * 8) output)))%Z.
Proof.
  induction k as [|k IH]; intros start Hlen; simpl.
  - exists []. split_and!; [done..|]. intros i v Hi. done.
  - destruct (unpack_from_q_spec output (start * 8)) as (v0 & -> & Hr & Hv);
      [lia|].
    destruct (IH (S start)) as (rest & -> & Hlr & Hrest); [lia|].
    simpl. exists (v0 :: rest). split_and!; [done|simpl; lia|].
    intros [|i] v Hi; simpl in Hi; simplify_eq.
    + by rewrite Nat.add_0_r.
    + replace (start + S i) with (S start + i) by lia. by apply Hrest.
Qed.

(** The claim as the specification words it: every element of the trace is
    the unsigned value of its eight bytes.  It fails on the address
    [0xffffffffffffffff], which format [q] reads as [-1]. *)
Lemma unpack_not_unsigned :
  ¬ (∀ output trace i v,
       length output mod 8 = 0 → unpack output = Ok trace →
       trace !! i = Some v →
       v = little_endian (take 8 (drop (8 * i) output))).
Proof.
  intros H.
  specialize (H [xff; xff; xff; xff; xff; xff; xff; xff] [(-1)%Z] 0 (-1)%Z
                eq_refl eq_refl eq_refl).
  vm_compute in H. discriminate H.
Qed.

(** C8 (amended). [unpack] decodes standard error as a concatenation of
    64-bit little-endian integers read as signed (two's complement) values:
    for a byte string whose length is a multiple of 8 it returns a trace of
    [length / 8] elements, the [i]-th of which lies in [-2^63, 2^63) and is
    congruent modulo [2^64] to the unsigned little-endian value of bytes
    [8i .. 8i+7]; a length that is not a multiple of 8 fails the
    assertion. *)
Theorem unpack_signed_little_endian output :
  (length output mod 8 = 0 →
   ∃ trace, unpack output = Ok trace ∧
     length trace = length output / 8 ∧
     ∀ i v, trace !! i = Some v →
       (- 2 ^ 63 ≤ v < 2 ^ 63)%Z ∧
       (v mod 2 ^ 64 = little_endian (take 8 (drop (8 * i) output)))%Z) ∧
  (length output mod 8 ≠ 0 → unpack output = Raise AssertionError).
Proof.
  unfold unpack. split; intros Hmod.
  - rewrite bool_decide_eq_true_2 by done.
    destruct (unpack_loop_spec output (length output / 8) 0)
      as (trace & Htr & Hlen & Hi).
    { pose proof (Nat.div_mod_eq (length output) 8). lia. }
    exists trace. split_and!; [exact Htr|done|].
    intros i v Hv. replace (8 * i) with ((0 + i) * 8) by lia. by apply Hi.
  - by rewrite bool_decide_eq_false_2 by done.
Qed.

Lemma unpack_signed_little_endian_witness :
  ∃ trace,
    unpack [x00; x05; x40; x00; x00; x00; x00; x00;
            xfe; xff; xff; xff; xff; xff; xff; xff] = Ok trace ∧
    length trace = 2 ∧
    ∀ i v, trace !! i = Some v →
      (- 2 ^ 63 ≤ v < 2 ^ 63)%Z ∧
      (v mod 2 ^ 64 =
       little_endian
         (take 8 (drop (8 * i)
            [x00; x05; x40; x00; x00; x00; x00; x00;
             xfe; xff; xff; xff; xff; xff; xff; xff])))%Z.
Proof.
  exact (proj1 (unpack_signed_little_endian
                  [x00; x05; x40; x00; x00; x00; x00; x00;
                   xfe; xff; xff; xff; xff; xff; xff; xff]) eq_refl).
Defined.

(** ** Simulation and the bug return code *)

Lemma simulation_loop_found_bug execute cfg mutants g :
  FOUND_BUG g = true → simulation_loop execute cfg mutants g = Ok ([], g).
Proof.
  intros Hb. induction mutants as [|m ms IH]; simpl; [done|].
  by rewrite Hb.
Qed.

(** C7 (the code departs from the claim). Once an input of the batch
    returns the bug code, [simulation] runs none of the inputs after it,
    whether coverage-only mode is on or off: with [COVERAGE_ONLY] set, a
    batch [m1; m2] whose first input hits the bug launches the binary on
    [m1] only. *)
Theorem simulation_stops_after_bug execute cfg m1 m2 g tr :
  COVERAGE_ONLY cfg = true →
  FOUND_BUG g = false →
  (execute m1).2 = BUG_RET cfg →
  unpack (execute m1).1.2 = Ok tr →
  ∃ g', simulation_loop execute cfg [m1; m2] g = Ok ([tr], g') ∧
        LAUNCHED g' = m1 :: LAUNCHED g ∧ FOUND_BUG g' = true.
Proof.
  intros _ Hb Hret Htr. simpl. rewrite Hb. simpl.
  unfold binary_execute. destruct (execute m1) as [[out err] ret].
  simpl in Hret, Htr. subst ret. rewrite bool_decide_eq_true_2 by done.
  rewrite Htr. simpl. eexists. split_and!; reflexivity.
Qed.

Lemma simulation_stops_after_bug_witness :
  ∃ g', simulation_loop example_execute coverage_only_config
          [[x42]; [x43]] initial_globals = Ok ([[100%Z; 200%Z]], g') ∧
        LAUNCHED g' = [x42] :: LAUNCHED initial_globals ∧
        FOUND_BUG g' = true.
Proof.
  apply (simulation_stops_after_bug example_execute coverage_only_config
           [x42] [x43] initial_globals [100%Z; 200%Z]);
    reflexivity.
Defined.

(** ** [score] *)

(** C4. The special values of [score]: a fully explored node scores minus
    infinity; a node that is not fully explored and has [sel_try = 0]
    scores plus infinity; and so does the root when it is not fully
    explored. *)
Theorem score_special_values cfg n h x :
  h !! n = Some x →
  (fully_explored x = true → score cfg n h = Ok NegInf) ∧
  (fully_explored x = false → sel_try x = 0 → score cfg n h = Ok PosInf) ∧
  (fully_explored x = false → parent x = None → score cfg n h = Ok PosInf).
Proof.
  intros Hx%node_Ok. unfold score. rewrite Hx. simpl. split_and!.
  - by intros ->.
  - intros -> ->. done.
  - intros -> Hp. unfold is_root. rewrite Hp. simpl. by case_bool_decide.
Qed.

Lemma score_special_values_witness :
  (fully_explored (TreeNode_init 100 None) = true →
   score default_config 0 example_root = Ok NegInf) ∧
  (fully_explored (TreeNode_init 100 None) = false →
   sel_try (TreeNode_init 100 None) = 0 →
   score default_config 0 example_root = Ok PosInf) ∧
  (fully_explored (TreeNode_init 100 None) = false →
   parent (TreeNode_init 100 None) = None →
   score default_config 0 example_root = Ok PosInf).
Proof.
  exact (score_special_values default_config 0 example_root
           (TreeNode_init 100 None) eq_refl).
Defined.

(** With at least two samples per round the count of constraint-solving
    calls is positive from the first selection on. *)
Lemma constraint_solving_count_pos cfg x :
  (2 ≤ MIN_SAMPLES cfg)%Z → 1 ≤ sel_try x →
  ∃ count, constraint_solving_count cfg x = Ok count ∧ (1 ≤ count)%Z.
Proof.
  intros Hmin Hsel. unfold constraint_solving_count.
  destruct (Z.leb_spec (MIN_SAMPLES cfg) 0); [lia|].
  eexists. split; [done|].
  assert (0 < Z.log2_up (MIN_SAMPLES cfg))%Z by (apply Z.log2_up_pos; lia).
  lia.
Qed.


(** C5 (the code departs from the claim). The divisor of
    [average_constraint_solving_time] is
    [ceil(log(MIN_SAMPLES, 2) + sel_try - 1)], with no lower bound of 1: for
    [MIN_SAMPLES = 1] and a node that is not the root, not fully explored
    and has [sel_try = 1], it is 0 and [score] raises
    [ZeroDivisionError]. *)
Theorem score_divides_by_zero cfg n h x p xp :
  MIN_SAMPLES cfg = 1%Z →
  h !! n = Some x → fully_explored x = false → sel_try x = 1 →
  parent x = Some p → h !! p = Some xp → sel_try xp ≠ 0 →
  score cfg n h = Raise ZeroDivisionError.
Proof.
  intros Hmin Hx%node_Ok Hfe Hsel Hpar Hxp%node_Ok Hpsel.
  unfold score. rewrite Hx. simpl. rewrite Hfe, Hsel. simpl.
  unfold is_root. rewrite Hpar, Hxp. simpl.
  rewrite bool_decide_eq_false_2 by done. simpl.
  unfold time_penalisation, average_constraint_solving_time,
    constraint_solving_count.
  rewrite Hmin, Hsel. reflexivity.
Qed.

Lemma score_divides_by_zero_witness :
  score min_samples_one_config 2 example_initialised.2
  = Raise ZeroDivisionError.
Proof.
  eapply (score_divides_by_zero min_samples_one_config 2
            example_initialised.2 _ 1 _);
    [reflexivity|vm_compute; reflexivity|reflexivity|reflexivity
    |reflexivity|vm_compute; reflexivity|vm_compute; discriminate].
Defined.

(** The first round of that run selects among the children of the root and
    stops on the division. *)
Example run_min_samples_one :
  run example_symex example_state example_execute (λ n, n) exploit
      min_samples_one_config 10
  = Raise ZeroDivisionError.
Proof. vm_compute. reflexivity. Qed.

(** ** How a heap evolves during a run *)

Lemma dict_get_set_eq k v (d : list (key * nat)) :
  dict_get k (dict_set k v d) = Some v.
Proof.
  induction d as [|[k' v'] d IH]; simpl.
  - by rewrite decide_True.
  - destruct (decide (k = k')) as [->|Hne]; simpl.
    + by rewrite decide_True.
    + by rewrite decide_False.
Qed.

Lemma dict_get_set_ne k k' v (d : list (key * nat)) :
  k ≠ k' → dict_get k' (dict_set k v d) = dict_get k' d.
Proof.
  intros Hne. induction d as [|[k0 v0] d IH]; simpl.
  - by rewrite decide_False.
  - destruct (decide (k = k0)) as [->|Hne0]; simpl.
    + by rewrite !decide_False.
    + by rewrite IH.
Qed.

Lemma dict_set_keys k v (d : list (key * nat)) :
  (dict_set k v d).*1 = if dict_get k d is Some _ then d.*1 else d.*1 ++ [k].
Proof.
  induction d as [|[k0 v0] d IH]; [done|].
  cbn [dict_set dict_get].
  destruct (decide (k = k0)) as [->|Hne]; [done|].
  rewrite fmap_cons, IH. by destruct (dict_get k d).
Qed.

Lemma dict_get_None_keys k (d : list (key * nat)) :
  dict_get k d = None → k ∉ d.*1.
Proof.
  induction d as [|[k0 v0] d IH]; simpl; [intros _; apply not_elem_of_nil|].
  destruct (decide (k = k0)); [done|]. intros Hd.
  apply not_elem_of_cons. split; [done|by apply IH].
Qed.

Lemma dict_set_nodup k v (d : list (key * nat)) :
  NoDup d.*1 → NoDup (dict_set k v d).*1.
Proof.
  intros Hd. rewrite dict_set_keys.
  destruct (dict_get k d) eqn:E; [done|].
  apply list.NoDup_app. split_and!; [done| |apply list.NoDup_singleton].
  intros k' Hk' ->%list_elem_of_singleton.
  by apply (dict_get_None_keys _ _ E).
Qed.

Lemma dict_get_lookup k v (d : list (key * nat)) :
  dict_get k d = Some v → ∃ i, d !! i = Some (k, v).
Proof.
  induction d as [|[k0 v0] d IH]; simpl; [done|].
  destruct (decide (k = k0)) as [->|Hne].
  - intros [= ->]. by exists 0.
  - intros [i Hi]%IH. by exists (S i).
Qed.

Lemma dict_lookup_get i k v (d : list (key * nat)) :
  NoDup d.*1 → d !! i = Some (k, v) → dict_get k d = Some v.
Proof.
  revert i. induction d as [|[k0 v0] d IH]; intros i Hd Hi; [done|].
  simpl in Hd. apply list.NoDup_cons in Hd as [Hk0 Hd]. simpl.
  destruct i as [|i]; simpl in Hi.
  - simplify_eq. by rewrite decide_True.
  - destruct (decide (k = k0)) as [->|Hne]; [|by eapply IH].
    destruct Hk0. apply list_elem_of_fmap. exists (k0, v).
    split; [done|]. by eapply list_elem_of_lookup_2.
Qed.

(** What every operation of a run keeps of a node that exists already. *)
Record node_step (x x' : TreeNode) : Prop := {
  ns_addr : addr x' = addr x;
  ns_parent : parent x' = parent x;
  ns_time : accumulated_time x' = accumulated_time x;
  ns_colour :
    colour x' = colour x ∨ (colour x = W ∧ (colour x' = R ∨ colour x' = B));
  ns_sim : ∀ g, dict_get Simulation (children x) = Some g →
                dict_get Simulation (children x') = Some g;
  ns_children : ∀ a c, dict_get (KAddr a) (children x) = Some c →
                       dict_get (KAddr a) (children x') = Some c;
  ns_nodup : NoDup (children x).*1 → NoDup (children x').*1;
  ns_phantom : phantom x' = true → phantom x = true;
  ns_phantom_keep : phantom x' = true →
    sim_try x' = sim_try x ∧
    ∀ a, dict_get (KAddr a) (children x')
         = dict_get (KAddr a) (children x);
  ns_explored : fully_explored x = true → fully_explored x' = true;
  ns_sel_try : sel_try x ≤ sel_try x';
  ns_sim_try : sim_try x ≤ sim_try x';
  ns_sim_win : sim_win x ≤ sim_win x';
  ns_gold_win : colour x = G → sim_win x' = sim_win x
}.

Lemma node_step_refl x : node_step x x.
Proof. split; auto. Qed.

Lemma node_step_not_gold x x' : node_step x x' → colour x ≠ G → colour x' ≠ G.
Proof.
  intros S1 Hx. destruct (ns_colour _ _ S1) as [E|[E1 [E2|E2]]]; congruence.
Qed.

Lemma node_step_gold x x' : node_step x x' → colour x' = G → colour x = G.
Proof.
  intros S1 Hx. destruct (ns_colour _ _ S1) as [E|[E1 [E2|E2]]]; congruence.
Qed.

Lemma node_step_keeps x x' :
  node_step x x' → colour x ≠ W → colour x' = colour x.
Proof. intros S1 Hx. destruct (ns_colour _ _ S1) as [E|[E1 _]]; congruence. Qed.

Lemma node_step_entry x x' k c :
  node_step x x' → dict_get k (children x) = Some c →
  dict_get k (children x') = Some c.
Proof.
  intros S1. destruct k; [apply (ns_children _ _ S1)|apply (ns_sim _ _ S1)].
Qed.

Lemma node_step_trans x y z : node_step x y → node_step y z → node_step x z.
Proof.
  intros S1 S2. split.
  - rewrite (ns_addr _ _ S2). apply S1.
  - rewrite (ns_parent _ _ S2). apply S1.
  - rewrite (ns_time _ _ S2). apply S1.
  - destruct (ns_colour _ _ S1) as [E|[E1 E2]],
      (ns_colour _ _ S2) as [E'|[E1' E2']].
    + left. congruence.
    + right. split; [congruence|done].
    + right. split; [done|]. by rewrite E'.
    + destruct E2; congruence.
  - intros g Hg. by apply (ns_sim _ _ S2), (ns_sim _ _ S1).
  - intros a c Hc. by apply (ns_children _ _ S2), (ns_children _ _ S1).
  - intros Hd. by apply (ns_nodup _ _ S2), (ns_nodup _ _ S1).
  - intros Hp. by apply (ns_phantom _ _ S1), (ns_phantom _ _ S2).
  - intros Hp. destruct (ns_phantom_keep _ _ S2 Hp) as [-> Hc2].
    destruct (ns_phantom_keep _ _ S1 (ns_phantom _ _ S2 Hp)) as [-> Hc1].
    split; [done|]. intros a. by rewrite Hc2.
  - intros He. by apply (ns_explored _ _ S2), (ns_explored _ _ S1).
  - pose proof (ns_sel_try _ _ S1). pose proof (ns_sel_try _ _ S2). lia.
  - pose proof (ns_sim_try _ _ S1). pose proof (ns_sim_try _ _ S2). lia.
  - pose proof (ns_sim_win _ _ S1). pose proof (ns_sim_win _ _ S2). lia.
  - intros HG. rewrite (ns_gold_win _ _ S2), (ns_gold_win _ _ S1); [done..|].
    by rewrite (node_step_keeps _ _ S1), HG by congruence.
Qed.

(** The relation between the heap before and the heap after an operation.
    Nodes are kept ([ev_len], [ev_old]).  A fresh Gold node has no win and
    is the Simulation child of a node that has just become Red
    ([ev_new_gold]); a fresh phantom is Red, has not been simulated and has
    no block child ([ev_new_phantom]); a fresh node is a child of its parent
    ([ev_new_parent]), was made after it ([ev_new_older]) and has no key
    twice ([ev_new_nodup]).  A block child is an old one or a fresh node at that
    address that is not Gold ([ev_addr_child]); a Simulation child is an old
    one or a fresh Gold node ([ev_sim_child]). *)
Record evolves (h h' : list TreeNode) : Prop := {
  ev_len : length h ≤ length h';
  ev_old : ∀ i x, h !! i = Some x → ∃ x', h' !! i = Some x' ∧ node_step x x';
  ev_new_gold : ∀ g y, length h ≤ g → h' !! g = Some y → colour y = G →
    sim_win y = 0 ∧
    ∃ r xr, h' !! r = Some xr ∧ colour xr = R ∧
            dict_get Simulation (children xr) = Some g ∧
            (length h ≤ r ∨ ∃ x, h !! r = Some x ∧ colour x = W);
  ev_new_phantom : ∀ i y, length h ≤ i → h' !! i = Some y →
    phantom y = true →
    colour y = R ∧ sim_try y = 0 ∧
    ∀ a, dict_get (KAddr a) (children y) = None;
  ev_new_parent : ∀ c y p, length h ≤ c → h' !! c = Some y →
    parent y = Some p →
    ∃ xp k, h' !! p = Some xp ∧ dict_get k (children xp) = Some c;
  ev_new_older : ∀ c y p, length h ≤ c → h' !! c = Some y →
    parent y = Some p → p < c;
  ev_new_nodup : ∀ i y, length h ≤ i → h' !! i = Some y →
    NoDup (children y).*1;
  ev_addr_child : ∀ i x' a c,
    h' !! i = Some x' → dict_get (KAddr a) (children x') = Some c →
    (∃ x, h !! i = Some x ∧ dict_get (KAddr a) (children x) = Some c) ∨
    (length h ≤ c ∧ ∃ y, h' !! c = Some y ∧ colour y ≠ G ∧ addr y = a);
  ev_sim_child : ∀ i x' g,
    h' !! i = Some x' → dict_get Simulation (children x') = Some g →
    (∃ x, h !! i = Some x ∧ dict_get Simulation (children x) = Some g) ∨
    (length h ≤ g ∧ ∃ y, h' !! g = Some y ∧ colour y = G)
}.

Lemma evolves_refl h : evolves h h.
Proof.
  split; [done|..].
  - intros i x Hx. exists x. split; [done|apply node_step_refl].
  - intros g y Hg Hy. apply lookup_lt_Some in Hy. lia.
  - intros g y Hg Hy. apply lookup_lt_Some in Hy. lia.
  - intros g y p Hg Hy. apply lookup_lt_Some in Hy. lia.
  - intros g y p Hg Hy. apply lookup_lt_Some in Hy. lia.
  - intros g y Hg Hy. apply lookup_lt_Some in Hy. lia.
  - intros i x' a c Hx' Hc. left. eauto.
  - intros i x' c Hx' Hc. left. eauto.
Qed.

(** A node of [h'] is a node of [h] that took a step, or is fresh. *)
Lemma evolves_lookup h h' i x' :
  evolves h h' → h' !! i = Some x' →
  (∃ x, h !! i = Some x ∧ node_step x x') ∨ length h ≤ i.
Proof.
  intros E Hx'. destruct (decide (i < length h)) as [Hlt|]; [|right; lia].
  apply lookup_lt_is_Some_2 in Hlt as [x Hx]. left.
  destruct (ev_old _ _ E _ _ Hx) as (y & Hy & S1). simplify_eq. eauto.
Qed.

Lemma evolves_trans h1 h2 h3 : evolves h1 h2 → evolves h2 h3 → evolves h1 h3.
Proof.
  intros E1 E2. pose proof (ev_len _ _ E1). pose proof (ev_len _ _ E2).
  split.
  - lia.
  - intros i x Hx. destruct (ev_old _ _ E1 _ _ Hx) as (y & Hy & S1).
    destruct (ev_old _ _ E2 _ _ Hy) as (z & Hz & S2).
    exists z. split; [done|by eapply node_step_trans].
  - intros g z Hg Hz HG.
    destruct (evolves_lookup _ _ _ _ E2 Hz) as [(y & Hy & S2)|Hge].
    + pose proof (node_step_gold _ _ S2 HG) as HGy.
      destruct (ev_new_gold _ _ E1 _ _ Hg Hy HGy)
        as (Hwin & r & xr & Hr & HR & Hsim & Hnew).
      split; [rewrite (ns_gold_win _ _ S2); done|].
      destruct (ev_old _ _ E2 _ _ Hr) as (xr' & Hr' & Sr).
      exists r, xr'. split_and!; [done| |by apply (ns_sim _ _ Sr)|done].
      rewrite (node_step_keeps _ _ Sr); congruence.
    + destruct (ev_new_gold _ _ E2 g z)
        as (Hwin & r & xr & Hr & HR & Hsim & Hnew); [done..|].
      split; [done|]. exists r, xr. split_and!; [done..|].
      destruct Hnew as [?|(y & Hy & HW)]; [left; lia|].
      destruct (evolves_lookup _ _ _ _ E1 Hy) as [(x & Hx & S1)|?];
        [|by left].
      right. exists x. split; [done|].
      destruct (ns_colour _ _ S1) as [E|[E1' [E2'|E2']]]; congruence.
  - intros i z Hi Hz Hp.
    destruct (evolves_lookup _ _ _ _ E2 Hz) as [(y & Hy & S2)|Hge].
    + destruct (ev_new_phantom _ _ E1 _ _ Hi Hy (ns_phantom _ _ S2 Hp))
        as (HR & Hs & Hc).
      destruct (ns_phantom_keep _ _ S2 Hp) as [-> Hc2].
      split_and!; [|done|].
      * rewrite (node_step_keeps _ _ S2); congruence.
      * intros a. by rewrite Hc2.
    + by apply (ev_new_phantom _ _ E2 i z).
  - intros c z p Hc Hz Hp.
    destruct (evolves_lookup _ _ _ _ E2 Hz) as [(y & Hy & S2)|Hge].
    + rewrite (ns_parent _ _ S2) in Hp.
      destruct (ev_new_parent _ _ E1 _ _ _ Hc Hy Hp) as (xp & k & Hxp & Hk).
      destruct (ev_old _ _ E2 _ _ Hxp) as (xp' & Hxp' & Sp).
      exists xp', k. split; [done|by eapply node_step_entry].
    + by apply (ev_new_parent _ _ E2 c z p).
  - intros c z p Hc Hz Hp.
    destruct (evolves_lookup _ _ _ _ E2 Hz) as [(y & Hy & S2)|Hge].
    + rewrite (ns_parent _ _ S2) in Hp.
      by apply (ev_new_older _ _ E1 c y p).
    + by apply (ev_new_older _ _ E2 c z p).
  - intros i z Hi Hz.
    destruct (evolves_lookup _ _ _ _ E2 Hz) as [(y & Hy & S2)|Hge].
    + apply (ns_nodup _ _ S2). by apply (ev_new_nodup _ _ E1 i y).
    + by apply (ev_new_nodup _ _ E2 i z).
  - intros i z a c Hz Hc.
    destruct (ev_addr_child _ _ E2 _ _ _ _ Hz Hc)
      as [(y & Hy & Hcy)|(Hge & y & Hy & HG)].
    + destruct (ev_addr_child _ _ E1 _ _ _ _ Hy Hcy)
        as [(x & Hx & Hcx)|(Hge & y' & Hy' & HG & Ha)]; [left; eauto|].
      right. split; [done|].
      destruct (ev_old _ _ E2 _ _ Hy') as (z' & Hz' & S2).
      exists z'. split_and!; [done| |].
      * by eapply node_step_not_gold.
      * by rewrite (ns_addr _ _ S2).
    + right. split; [lia|eauto].
  - intros i z g Hz Hg.
    destruct (ev_sim_child _ _ E2 _ _ _ Hz Hg)
      as [(y & Hy & Hgy)|(Hge & y & Hy & HG)].
    + destruct (ev_sim_child _ _ E1 _ _ _ Hy Hgy)
        as [(x & Hx & Hgx)|(Hge & y' & Hy' & HG)]; [left; eauto|].
      right. split; [done|].
      destruct (ev_old _ _ E2 _ _ Hy') as (z' & Hz' & S2).
      exists z'. split; [done|].
      rewrite (node_step_keeps _ _ S2); congruence.
    + right. split; [lia|eauto].
Qed.

(** ** The invariant of the tree *)

(** Well-formedness of the tree rooted at [ROOT]: the root is a block node
    that is not a phantom; block children sit under their own address and
    are not Gold; Simulation children are Gold; no key occurs twice;
    every node is a child of its parent and was made after it; a phantom is
    Red, has not been
    simulated and has no block child; no Gold node has a win. *)
Record tree_inv (ROOT : nat) (h : list TreeNode) : Prop := {
  ti_root : ∃ r, h !! ROOT = Some r ∧ colour r ≠ G ∧ phantom r = false;
  ti_block : ∀ i x a c,
    h !! i = Some x → dict_get (KAddr a) (children x) = Some c →
    ∃ y, h !! c = Some y ∧ colour y ≠ G ∧ addr y = a;
  ti_sim : ∀ i x g,
    h !! i = Some x → dict_get Simulation (children x) = Some g →
    ∃ y, h !! g = Some y ∧ colour y = G;
  ti_nodup : ∀ i x, h !! i = Some x → NoDup (children x).*1;
  ti_parent : ∀ c y p, h !! c = Some y → parent y = Some p →
    ∃ xp k, h !! p = Some xp ∧ dict_get k (children xp) = Some c;
  ti_older : ∀ c y p, h !! c = Some y → parent y = Some p → p < c;
  ti_phantom : ∀ i x, h !! i = Some x → phantom x = true →
    colour x = R ∧ sim_try x = 0 ∧
    ∀ a, dict_get (KAddr a) (children x) = None;
  ti_gold_win : ∀ g y, h !! g = Some y → colour y = G → sim_win y = 0
}.

Lemma evolves_tree_inv ROOT h h' :
  evolves h h' → tree_inv ROOT h → tree_inv ROOT h'.
Proof.
  intros E I. split.
  - destruct (ti_root _ _ I) as (r & Hr & HG & Hp).
    destruct (ev_old _ _ E _ _ Hr) as (r' & Hr' & S1).
    exists r'. split_and!; [done|by eapply node_step_not_gold|].
    destruct (phantom r') eqn:Ep; [|done].
    by rewrite (ns_phantom _ _ S1 Ep) in Hp.
  - intros i x' a c Hx' Hc.
    destruct (ev_addr_child _ _ E _ _ _ _ Hx' Hc)
      as [(x & Hx & Hcx)|(_ & y & Hy)]; [|eauto].
    destruct (ti_block _ _ I _ _ _ _ Hx Hcx) as (y & Hy & HG & Ha).
    destruct (ev_old _ _ E _ _ Hy) as (y' & Hy' & S1).
    exists y'. split_and!; [done|by eapply node_step_not_gold|].
    by rewrite (ns_addr _ _ S1).
  - intros i x' g Hx' Hg.
    destruct (ev_sim_child _ _ E _ _ _ Hx' Hg)
      as [(x & Hx & Hgx)|(_ & y & Hy)]; [|eauto].
    destruct (ti_sim _ _ I _ _ _ Hx Hgx) as (y & Hy & HG).
    destruct (ev_old _ _ E _ _ Hy) as (y' & Hy' & S1).
    exists y'. split; [done|]. rewrite (node_step_keeps _ _ S1); congruence.
  - intros i x' Hx'.
    destruct (evolves_lookup _ _ _ _ E Hx') as [(x & Hx & S1)|Hge].
    + apply (ns_nodup _ _ S1). by eapply ti_nodup.
    + by apply (ev_new_nodup _ _ E i x').
  - intros c y' p Hy' Hp.
    destruct (evolves_lookup _ _ _ _ E Hy') as [(y & Hy & S1)|Hge].
    + rewrite (ns_parent _ _ S1) in Hp.
      destruct (ti_parent _ _ I _ _ _ Hy Hp) as (xp & k & Hxp & Hk).
      destruct (ev_old _ _ E _ _ Hxp) as (xp' & Hxp' & Sp).
      exists xp', k. split; [done|by eapply node_step_entry].
    + by apply (ev_new_parent _ _ E c y' p).
  - intros c y' p Hy' Hp.
    destruct (evolves_lookup _ _ _ _ E Hy') as [(y & Hy & S1)|Hge].
    + rewrite (ns_parent _ _ S1) in Hp. by apply (ti_older _ _ I c y p).
    + by apply (ev_new_older _ _ E c y' p).
  - intros i x' Hx' Hp.
    destruct (evolves_lookup _ _ _ _ E Hx') as [(x & Hx & S1)|Hge].
    + destruct (ti_phantom _ _ I _ _ Hx (ns_phantom _ _ S1 Hp))
        as (HR & Hs & Hc).
      destruct (ns_phantom_keep _ _ S1 Hp) as [-> Hc'].
      split_and!; [|done|].
      * rewrite (node_step_keeps _ _ S1); congruence.
      * intros a. by rewrite Hc'.
    + by apply (ev_new_phantom _ _ E i x').
  - intros g y' Hy' HG.
    destruct (evolves_lookup _ _ _ _ E Hy') as [(y & Hy & S1)|Hge].
    + pose proof (node_step_gold _ _ S1 HG) as HGy.
      rewrite (ns_gold_win _ _ S1 HGy). by eapply ti_gold_win.
    + by apply (ev_new_gold _ _ E g y').
Qed.

(** A node that has a block child is not a phantom, and neither is a Gold
    node. *)
Lemma tree_inv_parent_not_phantom ROOT h x a c :
  tree_inv ROOT h → (∃ i, h !! i = Some x) →
  dict_get (KAddr a) (children x) = Some c → phantom x = false.
Proof.
  intros I [i Hx] Hc. destruct (phantom x) eqn:Ep; [|done].
  destruct (ti_phantom _ _ I _ _ Hx Ep) as (_ & _ & Hnone).
  by rewrite Hnone in Hc.
Qed.

Lemma tree_inv_gold_not_phantom ROOT h i x :
  tree_inv ROOT h → h !! i = Some x → colour x = G → phantom x = false.
Proof.
  intros I Hx HG. destruct (phantom x) eqn:Ep; [|done].
  destruct (ti_phantom _ _ I _ _ Hx Ep) as (HR & _). congruence.
Qed.

Lemma tree_inv_phantom_inv ROOT h : tree_inv ROOT h → phantom_inv h.
Proof.
  intros I n x Hx Hp. destruct (ti_phantom _ _ I _ _ Hx Hp) as (_ & ? & ?).
  done.
Qed.

Lemma tree_inv_sim_gold ROOT h : tree_inv ROOT h → sim_gold h.
Proof. intros I r x g Hx _ Hg. by eapply ti_sim. Qed.

(** ** The operations, one by one *)

(** Closes the fields of [node_step] that hold because the assignment leaves
    the fields they read alone. *)
Ltac node_step_auto :=
  split; simpl; auto; try lia; try congruence;
  try (intros; split; [first [lia|done]|done]).

(** An assignment to fields of an existing node other than its children. *)
Lemma evolves_update f n (h : list TreeNode) :
  (∀ x, h !! n = Some x → node_step x (f x) ∧ children (f x) = children x) →
  evolves h (update f n h).
Proof.
  intros Hf. split.
  - by rewrite update_length.
  - intros i x Hx. rewrite update_lookup, Hx. case_decide; subst; simpl.
    + eexists. split; [done|]. by apply Hf.
    + eexists. split; [done|]. apply node_step_refl.
  - intros g y Hg Hy. apply lookup_lt_Some in Hy.
    rewrite update_length in Hy. lia.
  - intros g y Hg Hy. apply lookup_lt_Some in Hy.
    rewrite update_length in Hy. lia.
  - intros g y p Hg Hy. apply lookup_lt_Some in Hy.
    rewrite update_length in Hy. lia.
  - intros g y p Hg Hy. apply lookup_lt_Some in Hy.
    rewrite update_length in Hy. lia.
  - intros g y Hg Hy. apply lookup_lt_Some in Hy.
    rewrite update_length in Hy. lia.
  - intros i x' a c Hx' Hc. left.
    apply update_lookup_Some in Hx' as (x & Hx & [->|[-> ->]]); [eauto|].
    exists x. split; [done|]. by rewrite <- (proj2 (Hf _ Hx)).
  - intros i x' g Hx' Hg. left.
    apply update_lookup_Some in Hx' as (x & Hx & [->|[-> ->]]); [eauto|].
    exists x. split; [done|]. by rewrite <- (proj2 (Hf _ Hx)).
Qed.

(** [dye], unfolded. *)
Definition dyed_red (st : option State) (smp : option (list (option Z)))
    (n : nat) (x : TreeNode) (h : list TreeNode) : list TreeNode :=
  update (set_samples smp) (length h)
    (update (set_state st) (length h)
       (update (set_colour G) (length h)
          (update (set_children (dict_set Simulation (length h) (children x)))
             n (update (set_colour R) n h
                ++ [TreeNode_init (addr x) (Some n)])))).

Lemma dye_spec c st smp n h h' :
  dye c st smp n h = Ok h' →
  ∃ x, h !! n = Some x ∧ colour x = W ∧
    ((c ≠ R ∧
      h' = update (set_samples smp) n
             (update (set_state st) n (update (set_colour c) n h))) ∨
     (c = R ∧ dict_get Simulation (children x) = None ∧
      h' = dyed_red st smp n x h)).
Proof.
  unfold dye. simpl. intros H.
  apply bind_Ok in H as (x & Hx & H). pose proof Hx as Hx'%node_Ok.
  apply bind_Ok in H as (u1 & HW%debug_assertion_Ok & H).
  apply bind_Ok in H as (u2 & Hst%debug_assertion_Ok & H).
  apply bool_decide_eq_true in HW.
  exists x. split_and!; [done..|].
  destruct (decide (c = R)) as [->|Hne]; [right|left; by inv_result].
  apply bind_Ok in H as (u3 & Hno%debug_assertion_Ok & H).
  apply negb_true_iff in Hno. unfold dict_mem in Hno.
  destruct (dict_get Simulation (children x)) eqn:Hget; [done|].
  simpl in H. apply bind_Ok in H as (h1 & Hh1 & H).
  apply add_child_spec in Hh1 as (x1 & Hx1 & ->).
  rewrite update_length in *.
  assert (x1 = set_colour R x) as ->.
  { rewrite lookup_app_l in Hx1
      by (rewrite update_length; by eapply lookup_lt_Some).
    rewrite update_lookup, Hx', decide_True in Hx1 by done.
    simpl in Hx1. by injection Hx1 as <-. }
  apply bind_Ok in H as (x2 & Hx2%node_Ok & H).
  rewrite update_lookup, decide_True in Hx2 by done.
  rewrite lookup_app_l in Hx2
    by (rewrite update_length; by eapply lookup_lt_Some).
  rewrite update_lookup, Hx', decide_True in Hx2 by done.
  simpl in Hx2. simplify_eq. simpl in H.
  rewrite dict_get_set_eq in H.
  apply bind_Ok in H as (y & Hy%node_Ok & H).
  apply bind_Ok in H as (u4 & _ & H).
  apply bind_Ok in H as (u5 & _ & H).
  injection H as <-. split_and!; done.
Qed.

Lemma dyed_red_length st smp n x h :
  length (dyed_red st smp n x h) = S (length h).
Proof.
  unfold dyed_red. rewrite !update_length, length_app, update_length.
  simpl. lia.
Qed.

Lemma dyed_red_lookup st smp n x h i :
  h !! n = Some x →
  dyed_red st smp n x h !! i =
    if decide (i = length h) then
      Some (set_samples smp (set_state st
              (set_colour G (TreeNode_init (addr x) (Some n)))))
    else if decide (i = n) then
      Some (set_children (dict_set Simulation (length h) (children x))
              (set_colour R x))
    else h !! i.
Proof.
  intros Hx. pose proof (lookup_lt_Some _ _ _ Hx) as Hn.
  unfold dyed_red. rewrite !update_lookup.
  destruct (decide (i = length h)) as [->|Hi].
  - rewrite !decide_True by done. rewrite decide_False by lia.
    rewrite lookup_app_r by (rewrite update_length; lia).
    rewrite update_length, Nat.sub_diag. done.
  - rewrite !(decide_False (P := length h = i)) by done.
    destruct (decide (i = n)) as [->|Hne].
    + rewrite decide_True by done.
      rewrite lookup_app_l by (rewrite update_length; lia).
      rewrite update_lookup, decide_True, Hx by done. done.
    + rewrite decide_False by done.
      destruct (decide (i < length h)).
      * rewrite lookup_app_l by (rewrite update_length; lia).
        by rewrite update_lookup, decide_False.
      * rewrite !lookup_ge_None_2; [done|lia|].
        rewrite length_app, update_length. simpl. lia.
Qed.

(** Reads a lookup in a heap given by cases on the index. *)
Ltac by_cases_in H :=
  repeat (let E := fresh "E" in case_decide as E; subst; simplify_eq);
  try lia; try (apply lookup_lt_Some in H; lia).

Lemma dye_evolves c st smp n h h' :
  c = R ∨ c = B → dye c st smp n h = Ok h' → evolves h h'.
Proof.
  intros Hc (x & Hx & HW & [[Hne ->]|(-> & Hget & ->)])%dye_spec.
  - assert (c = B) as -> by (destruct Hc; congruence).
    eapply evolves_trans; [eapply evolves_trans|]; apply evolves_update.
    + intros ? ?. simplify_eq. split; [|done]. node_step_auto.
    + intros ? _. split; [|done]. node_step_auto.
    + intros ? _. split; [|done]. node_step_auto.
  - pose proof (lookup_lt_Some _ _ _ Hx) as Hn.
    pose proof (dyed_red_lookup st smp n x h) as Hlook. split.
    + rewrite dyed_red_length. lia.
    + intros i y Hy. rewrite Hlook by done.
      rewrite decide_False by (apply lookup_lt_Some in Hy; lia).
      case_decide; subst; simplify_eq.
      * eexists. split; [done|]. node_step_auto.
        -- intros a c Hc'. by rewrite dict_get_set_ne.
        -- apply dict_set_nodup.
        -- intros _. split; [done|]. intros a. by rewrite dict_get_set_ne.
      * eexists. split; [done|]. apply node_step_refl.
    + intros g y Hg Hy HG. rewrite Hlook in Hy by done. by_cases_in Hy.
      split; [done|].
      exists n. eexists. rewrite Hlook by done.
      rewrite decide_False by lia. rewrite decide_True by done.
      split_and!; [done|done|simpl; apply dict_get_set_eq|].
      right. eauto.
    + intros i y Hi Hy Hp. rewrite Hlook in Hy by done. by_cases_in Hy.
    + intros c y p Hc' Hy Hp. rewrite Hlook in Hy by done. by_cases_in Hy.
      simpl in Hp. simplify_eq. eexists _, Simulation.
      rewrite Hlook by done.
      rewrite decide_False by lia. rewrite decide_True by done.
      split; [done|]. simpl. apply dict_get_set_eq.
    + intros c y p Hc' Hy Hp. rewrite Hlook in Hy by done. by_cases_in Hy.
      simpl in Hp. by simplify_eq.
    + intros i y Hi Hy. rewrite Hlook in Hy by done. by_cases_in Hy.
      simpl. constructor.
    + intros i y a c Hy Hc'. left.
      rewrite Hlook in Hy by done.
      by_cases_in Hy; simpl in Hc'; try done;
        try (rewrite dict_get_set_ne in Hc' by done); eauto.
    + intros i y g Hy Hg.
      rewrite Hlook in Hy by done.
      by_cases_in Hy; simpl in Hg; try done; [|left; eauto].
      rewrite dict_get_set_eq in Hg. simplify_eq.
      right. split; [done|]. rewrite Hlook by done.
      rewrite decide_True by done. eexists. split; [done|]. done.
Qed.

Lemma marks_only_evolves h h' : marks_only h h' → evolves h h'.
Proof.
  intros [Hlen Hm].
  assert (∀ g (y : TreeNode), length h ≤ g → h' !! g = Some y → False) as Hnew.
  { intros g y Hg Hy. apply lookup_lt_Some in Hy. lia. }
  split.
  - lia.
  - intros i x Hx. destruct (Hm i x Hx) as (b & Hb & Ht).
    eexists. split; [done|]. node_step_auto.
  - intros g y Hg Hy. by destruct (Hnew g y).
  - intros g y Hg Hy. by destruct (Hnew g y).
  - intros g y p Hg Hy. by destruct (Hnew g y).
  - intros g y p Hg Hy. by destruct (Hnew g y).
  - intros g y Hg Hy. by destruct (Hnew g y).
  - intros i x' a c Hx' Hc. left.
    destruct (marks_only_lookup _ _ _ _ (conj Hlen Hm) Hx')
      as (x & b & Hx & -> & _). eauto.
  - intros i x' g Hx' Hg. left.
    destruct (marks_only_lookup _ _ _ _ (conj Hlen Hm) Hx')
      as (x & b & Hx & -> & _). eauto.
Qed.

Lemma mark_fully_explored_evolves fuel n h h' :
  mark_fully_explored fuel n h = Ok h' → evolves h h'.
Proof.
  intros H. by eapply marks_only_evolves, mark_fully_explored_marks_only.
Qed.

(** The heap after a fresh White child is put under a new address. *)
Definition with_new_child (a : Z) (n : nat) (x : TreeNode)
    (h : list TreeNode) : list TreeNode :=
  update (set_children (dict_set (KAddr a) (length h) (children x))) n
    (h ++ [TreeNode_init a (Some n)]).

Lemma with_new_child_lookup a n x h i :
  h !! n = Some x →
  with_new_child a n x h !! i =
    if decide (i = n) then
      Some (set_children (dict_set (KAddr a) (length h) (children x)) x)
    else if decide (i = length h) then Some (TreeNode_init a (Some n))
    else h !! i.
Proof.
  intros Hx. pose proof (lookup_lt_Some _ _ _ Hx) as Hn.
  unfold with_new_child. rewrite update_lookup.
  destruct (decide (i = n)) as [->|Hne].
  - rewrite decide_True by done. by rewrite lookup_app_l, Hx.
  - rewrite decide_False by done.
    destruct (decide (i = length h)) as [->|Hl].
    + rewrite lookup_app_r by lia. by rewrite Nat.sub_diag.
    + destruct (decide (i < length h)).
      * by rewrite lookup_app_l.
      * rewrite !lookup_ge_None_2; [done|lia|].
        rewrite length_app. simpl. lia.
Qed.

Lemma evolves_new_child a n x (h : list TreeNode) :
  h !! n = Some x → phantom x = false →
  dict_get (KAddr a) (children x) = None →
  evolves h (with_new_child a n x h).
Proof.
  intros Hx Hph Hget. pose proof (lookup_lt_Some _ _ _ Hx) as Hn.
  pose proof (with_new_child_lookup a n x h) as Hlook.
  split.
  - unfold with_new_child. rewrite update_length, length_app. lia.
  - intros i y Hy. rewrite Hlook by done. case_decide; subst; simplify_eq.
    + eexists. split; [done|]. node_step_auto.
      * intros g Hg. by rewrite dict_get_set_ne.
      * intros a' c Hc. rewrite dict_get_set_ne; [done|]. congruence.
      * apply dict_set_nodup.
    + rewrite decide_False by (apply lookup_lt_Some in Hy; lia).
      eexists. split; [done|]. apply node_step_refl.
  - intros g y Hg Hy HG. rewrite Hlook in Hy by done. by_cases_in Hy.
  - intros g y Hg Hy Hp. rewrite Hlook in Hy by done. by_cases_in Hy.
  - intros c y p Hc Hy Hp. rewrite Hlook in Hy by done. by_cases_in Hy.
    simpl in Hp. simplify_eq. eexists _, (KAddr a). rewrite Hlook by done.
    rewrite decide_True by done. split; [done|]. simpl.
    apply dict_get_set_eq.
  - intros c y p Hc Hy Hp. rewrite Hlook in Hy by done. by_cases_in Hy.
    simpl in Hp. by simplify_eq.
  - intros g y Hg Hy. rewrite Hlook in Hy by done. by_cases_in Hy.
    simpl. constructor.
  - intros i y a' c Hy Hc. rewrite Hlook in Hy by done.
    by_cases_in Hy; simpl in Hc; try done; [|left; eauto].
    destruct (decide (a' = a)) as [->|Hne].
    + rewrite dict_get_set_eq in Hc. simplify_eq. right.
      split; [done|]. rewrite Hlook by done.
      rewrite decide_False, decide_True by lia.
      eexists. split; [done|]. done.
    + rewrite dict_get_set_ne in Hc by congruence. left. eauto.
  - intros i y g Hy Hg. left. rewrite Hlook in Hy by done.
    by_cases_in Hy; simpl in Hg; try done;
      try (rewrite dict_get_set_ne in Hg by done); eauto.
Qed.

(** ** Expansion keeps the invariant *)

(** The outcome of [match_child] on a node that is not a phantom: the heap
    evolves, and the child returned is a block child of the node, at the
    address asked for, and is not a phantom (any more). *)
Lemma match_child_evolves a n h b c h' :
  (∀ x, h !! n = Some x → phantom x = false) →
  match_child a n h = Ok (b, c, h') →
  evolves h h' ∧
  ∃ x' y, h' !! n = Some x' ∧
          dict_get (KAddr a) (children x') = Some c ∧
          h' !! c = Some y ∧ phantom y = false.
Proof.
  intros Hph (x & Hx & [(y & Hget & Hy & -> & ->)|(Hget & -> & -> & ->)])
    %match_child_spec.
  - split.
    + apply evolves_update. intros ? _. split; [|done]. node_step_auto.
    + rewrite !update_lookup, Hy. rewrite (decide_True (P := c = c)) by done.
      destruct (decide (c = n)) as [->|Hne]; simplify_eq; simpl.
      * rewrite Hx. simpl. eexists _, _. split_and!; done.
      * rewrite Hx. eexists _, _. split_and!; done.
  - fold (with_new_child a n x h).
    split; [apply evolves_new_child; auto|].
    pose proof (lookup_lt_Some _ _ _ Hx) as Hn.
    rewrite !(with_new_child_lookup _ _ _ _ _ Hx).
    rewrite decide_True by done. rewrite decide_False, decide_True by lia.
    eexists _, _. split_and!; [done| |done|done].
    simpl. apply dict_get_set_eq.
Qed.

(** The walk along a trace from [n]: every node on it is there and is not a
    phantom. *)
Fixpoint path_clear (tr : list Z) (n : nat) (h : list TreeNode) : Prop :=
  match tr with
  | [] => ∃ x, h !! n = Some x ∧ phantom x = false
  | a :: tr' =>
      ∃ x c, h !! n = Some x ∧ phantom x = false ∧
             dict_get (KAddr a) (children x) = Some c ∧
             path_clear tr' c h
  end.

Lemma node_step_not_phantom x x' :
  node_step x x' → phantom x = false → phantom x' = false.
Proof.
  intros S1 Hp. destruct (phantom x') eqn:E; [|done].
  by rewrite (ns_phantom _ _ S1 E) in Hp.
Qed.

Lemma path_clear_evolves tr : ∀ n h h',
  evolves h h' → path_clear tr n h → path_clear tr n h'.
Proof.
  induction tr as [|a tr IH]; intros n h h' E; simpl.
  - intros (x & Hx & Hp). destruct (ev_old _ _ E _ _ Hx) as (x' & Hx' & S1).
    exists x'. split; [done|by eapply node_step_not_phantom].
  - intros (x & c & Hx & Hp & Hc & Hrest).
    destruct (ev_old _ _ E _ _ Hx) as (x' & Hx' & S1).
    exists x', c. split_and!; [done|by eapply node_step_not_phantom
                              |by apply (ns_children _ _ S1)|by eapply IH].
Qed.

Lemma path_clear_start tr n h :
  path_clear tr n h → ∃ x, h !! n = Some x ∧ phantom x = false.
Proof. destruct tr; simpl; [done|]. intros (x & c & ? & ? & _). eauto. Qed.

Lemma integrate_walk_evolves tr : ∀ n is_new h t b h',
  (∀ x, h !! n = Some x → phantom x = false) →
  integrate_walk tr n is_new h = Ok (t, b, h') →
  evolves h h' ∧ (n < length h → path_clear tr n h') ∧
  ∀ y, h' !! t = Some y → phantom y = false.
Proof.
  induction tr as [|a tr IH]; intros n is_new h t b h' Hph H; simpl in H.
  - inv_result. split_and!; [apply evolves_refl| |done].
    intros [x Hx]%lookup_lt_is_Some_2. exists x. eauto.
  - apply bind_Ok in H as ([[new_child child] h1] & Ha & H).
    apply match_child_evolves in Ha
      as (E1 & x' & y & Hx' & Hc & Hy & Hyp); [|done].
    apply IH in H as (E2 & Hpath & Ht); [|intros ? ?; by simplify_eq].
    split_and!; [by eapply evolves_trans| |done].
    intros Hn. destruct (ev_old _ _ E2 _ _ Hx') as (x'' & Hx'' & S2).
    exists x'', child. split_and!; [done| |by apply (ns_children _ _ S2)|].
    + eapply node_step_not_phantom; [done|].
      apply lookup_lt_is_Some_2 in Hn as [x Hx].
      destruct (ev_old _ _ E1 _ _ Hx) as (x1 & Hx1 & S1). simplify_eq.
      eapply node_step_not_phantom; [done|]. by apply Hph.
    + apply Hpath. by eapply lookup_lt_Some.
Qed.

Lemma integrate_path_evolves ROOT trace h b h' :
  (∀ x, h !! ROOT = Some x → phantom x = false) →
  integrate_path ROOT trace h = Ok (b, h') →
  evolves h h' ∧ path_clear (tail trace) ROOT h'.
Proof.
  intros Hph H. destruct trace as [|a0 rest]; [discriminate|]. simpl in H.
  apply bind_Ok in H as (r & Hr%node_lt & H).
  apply bind_Ok in H as (u & _ & H).
  apply bind_Ok in H as ([[t is_new] hw] & Hwalk & H).
  apply bind_Ok in H as (x & Hx%node_Ok & H). injection H as <- <-.
  apply integrate_walk_evolves in Hwalk as (E1 & Hpath & Ht); [|done].
  assert (evolves hw (update (set_sim_try (if bool_decide (sim_try x = 0)
                                           then 1 else sim_try x)) t hw))
    as E2.
  { apply evolves_update. intros ? ?. simplify_eq. split; [|done].
    node_step_auto; try (case_bool_decide; lia).
    intros Hp. by rewrite (Ht _ Hx) in Hp. }
  split; [by eapply evolves_trans|].
  simpl. eapply path_clear_evolves; [done|]. by apply Hpath.
Qed.

Lemma expansion_evolves ROOT traces : ∀ h bs h',
  (∀ x, h !! ROOT = Some x → phantom x = false) →
  expansion ROOT traces h = Ok (bs, h') →
  evolves h h' ∧ Forall (λ tr, path_clear (tail tr) ROOT h') traces.
Proof.
  induction traces as [|tr traces IH]; intros h bs h' Hph H; simpl in H.
  - inv_result. split; [apply evolves_refl|constructor].
  - apply bind_Ok in H as ([b h1] & Hb & H).
    apply bind_Ok in H as ([bs' h2] & Hbs & H). injection H as <- <-.
    apply integrate_path_evolves in Hb as [E1 Hp1]; [|done].
    apply IH in Hbs as [E2 Hp2].
    2:{ intros x Hx. destruct (path_clear_start _ _ _ Hp1) as (x1 & Hx1 & ?).
        by simplify_eq. }
    split; [by eapply evolves_trans|].
    constructor; [by eapply path_clear_evolves|done].
Qed.

(** ** Propagation keeps the invariant *)

Lemma record_simulation_evolves ROOT n new h h' :
  tree_inv ROOT h →
  (∀ x, h !! n = Some x → colour x ≠ G ∧ phantom x = false) →
  record_simulation n new h = Ok h' → evolves h h'.
Proof.
  intros I Hn H. unfold record_simulation in H.
  apply bind_Ok in H as (x & Hx%node_Ok & H).
  apply bind_Ok in H as (x1 & Hx1%node_Ok & H).
  apply bind_Ok in H as (x2 & Hx2%node_Ok & H).
  destruct (Hn _ Hx) as [HnG Hnp].
  assert (x1 = set_sim_win (sim_win x + (if new then 1 else 0)) x) as ->.
  { rewrite update_lookup, Hx, decide_True in Hx1 by done.
    simpl in Hx1. by injection Hx1 as <-. }
  set (h1 := update (set_sim_win (sim_win x + (if new then 1 else 0))) n h)
    in *.
  set (h2 := update (set_sim_try
                       (sim_try (set_sim_win
                          (sim_win x + (if new then 1 else 0)) x) + 1))
               n h1) in *.
  assert (evolves h h1) as E1.
  { apply evolves_update. intros x0 Hx0. rewrite Hx in Hx0.
    injection Hx0 as <-. split; [|done]. node_step_auto. }
  assert (evolves h1 h2) as E2.
  { apply evolves_update. intros x0 Hx0. rewrite Hx1 in Hx0.
    injection Hx0 as <-. split; [|done]. node_step_auto. }
  assert (evolves h h2) as E12 by (by eapply evolves_trans).
  eapply evolves_trans; [done|].
  destruct (dict_get Simulation (children x2)) as [s|] eqn:Hs;
    [|injection H as <-; apply evolves_refl].
  apply bind_Ok in H as (y & Hy%node_Ok & H). injection H as <-.
  apply evolves_update. intros ? ?. simplify_eq. split; [|done].
  pose proof (evolves_tree_inv _ _ _ E12 I) as I2.
  destruct (ti_sim _ _ I2 _ _ _ Hx2 Hs) as (y' & Hy' & HG). simplify_eq.
  node_step_auto. intros Hp.
  by rewrite (tree_inv_gold_not_phantom _ _ _ _ I2 Hy HG) in Hp.
Qed.

Lemma propagate_walk_evolves ROOT tr : ∀ n is_new h t h',
  tree_inv ROOT h → path_clear tr n h →
  propagate_walk tr n is_new h = Ok (t, h') → evolves h h'.
Proof.
  induction tr as [|a tr IH]; intros n is_new h t h' I Hpath H; simpl in H.
  - inv_result. apply evolves_refl.
  - apply bind_Ok in H as (x & Hx%node_Ok & H).
    destruct Hpath as (x' & c & Hx' & Hp & Hc & Hrest). simplify_eq.
    rewrite Hc in H.
    apply bind_Ok in H as (h1 & Hh1 & H).
    assert (evolves h h1) as E1.
    { eapply record_simulation_evolves; [done| |done].
      intros y Hy.
      destruct (ti_block _ _ I _ _ _ _ Hx' Hc) as (y' & Hy' & HG & _).
      simplify_eq. split; [done|].
      destruct (path_clear_start _ _ _ Hrest) as (y' & Hy'' & ?).
      by simplify_eq. }
    eapply evolves_trans; [done|]. eapply IH; [| |done].
    + by eapply evolves_tree_inv.
    + by eapply path_clear_evolves.
Qed.

Lemma propagate_execution_trace_evolves fuel ROOT trace is_new h h' :
  tree_inv ROOT h → path_clear (tail trace) ROOT h →
  propagate_execution_trace fuel ROOT trace is_new h = Ok h' → evolves h h'.
Proof.
  intros I Hpath H.
  destruct trace as [|a0 rest]; [discriminate|]. simpl in H, Hpath.
  apply bind_Ok in H as (r' & Hr'%node_Ok & H).
  apply bind_Ok in H as (u & _ & H).
  apply bind_Ok in H as (h1 & Hh1 & H).
  apply bind_Ok in H as ([t h2] & Hh2 & H).
  assert (evolves h h1) as E1.
  { eapply record_simulation_evolves; [done| |done]. intros x Hx.
    destruct (ti_root _ _ I) as (r & Hr & HG & Hp). by simplify_eq. }
  assert (evolves h1 h2) as E2.
  { eapply propagate_walk_evolves; [| |done].
    - by eapply evolves_tree_inv.
    - by eapply path_clear_evolves. }
  eapply evolves_trans; [done|]. eapply evolves_trans; [done|].
  by eapply mark_fully_explored_evolves.
Qed.

Lemma propagate_execution_traces_loop_evolves fuel ROOT traces :
  ∀ are_new h h',
  tree_inv ROOT h →
  Forall (λ tr, path_clear (tail tr) ROOT h) traces →
  propagate_execution_traces_loop fuel ROOT traces are_new h = Ok h' →
  evolves h h'.
Proof.
  induction traces as [|tr traces IH]; intros are_new h h' I Hpaths H;
    simpl in H.
  - inv_result. apply evolves_refl.
  - destruct are_new as [|b are_new]; [done|].
    apply bind_Ok in H as (h1 & Hh1 & H).
    apply list.Forall_cons in Hpaths as [Hp Hpaths].
    pose proof (propagate_execution_trace_evolves _ _ _ _ _ _ I Hp Hh1) as E1.
    eapply evolves_trans; [done|]. eapply IH; [| |done].
    + by eapply evolves_tree_inv.
    + eapply list.Forall_impl; [done|]. intros tr'. by apply path_clear_evolves.
Qed.

Lemma propagate_selection_path_evolves fuel : ∀ n are_new h h',
  propagate_selection_path fuel n are_new h = Ok h' → evolves h h'.
Proof.
  induction fuel as [|fuel IH]; intros [n|] are_new h h' H; simpl in H;
    try (inv_result; apply evolves_refl); try done.
  apply bind_Ok in H as (x & Hx%node_Ok & H).
  eapply evolves_trans; [|by eapply IH].
  apply evolves_update. intros ? ?. simplify_eq. split; [|done].
  node_step_auto.
Qed.

Lemma propagation_evolves fuel ROOT n traces are_new h h' :
  tree_inv ROOT h →
  Forall (λ tr, path_clear (tail tr) ROOT h) traces →
  propagation fuel ROOT n traces are_new h = Ok h' → evolves h h'.
Proof.
  intros I Hpaths H. unfold propagation in H.
  apply bind_Ok in H as (h1 & Hh1%propagate_selection_path_evolves & H).
  eapply evolves_trans; [done|].
  unfold propagate_execution_traces in H.
  apply bind_Ok in H as (u & _ & H).
  eapply propagate_execution_traces_loop_evolves; [| |done].
  - by eapply evolves_tree_inv.
  - eapply list.Forall_impl; [done|]. intros tr'. by apply path_clear_evolves.
Qed.

(** ** The Sampler keeps the invariant *)

Lemma app_fuzzing_evolves cfg fuel n h results h' :
  app_fuzzing cfg fuel n h = Ok (results, h') → evolves h h'.
Proof.
  unfold app_fuzzing. intros H.
  apply bind_Ok in H as (x & Hx%node_Ok & H).
  apply bind_Ok in H as (st & Hst & H).
  apply bind_Ok in H as ([[res smp] exhausted] & Hloop & H).
  set (h1 := update (set_samples (Some smp)) n h) in *.
  assert (evolves h h1) as E1.
  { apply evolves_update. intros ? _. split; [|done]. node_step_auto. }
  destruct exhausted.
  - apply bind_Ok in H as (h3 & Hh3%mark_fully_explored_evolves & H).
    injection H as <- <-.
    eapply evolves_trans; [done|]. eapply evolves_trans; [|done].
    apply evolves_update. intros ? _. split; [|done]. node_step_auto.
  - by injection H as <- <-.
Qed.

Lemma mutate_evolves tape cfg fuel n g h results g' h' :
  mutate tape cfg fuel n g h = Ok (results, g', h') → evolves h h'.
Proof.
  unfold mutate. intros H. apply bind_Ok in H as (x & Hx & H).
  destruct (state x) as [st|].
  - case_bool_decide.
    + apply bind_Ok in H as ([res h1] & Hh1%app_fuzzing_evolves & H).
      by injection H as <- <- <-.
    + destruct (random_fuzzing _ _ _) as [res g1]. injection H as <- <- <-.
      apply evolves_refl.
  - destruct (random_fuzzing _ _ _) as [res g1]. injection H as <- <- <-.
    apply evolves_refl.
Qed.

Lemma simulation_evolves execute tape cfg fuel n g h traces g' h' :
  simulation execute tape cfg fuel n g h = Ok (traces, g', h') → evolves h h'.
Proof.
  unfold simulation. intros H.
  apply bind_Ok in H as ([[ms g1] h1] & Hm & H).
  apply bind_Ok in H as ([trs g2] & _ & H). injection H as <- <- <-.
  destruct n as [n|].
  - by eapply mutate_evolves.
  - destruct (SEEDS cfg).
    + destruct (random_fuzzing _ _ _). injection Hm as <- <- <-.
      apply evolves_refl.
    + injection Hm as <- <- <-. apply evolves_refl.
Qed.

(** C6 (the code departs from the claim). [app_fuzzing] leaves
    [accumulated_time] as it was, on the sampled node and on every other
    node, whatever the call took: no path of the source assigns the field
    after [__init__] has set it to 0. *)
Theorem app_fuzzing_keeps_accumulated_time cfg fuel n h results h' x :
  app_fuzzing cfg fuel n h = Ok (results, h') →
  h !! n = Some x →
  ∃ x', h' !! n = Some x' ∧ accumulated_time x' = accumulated_time x.
Proof.
  intros E%app_fuzzing_evolves Hx.
  destruct (ev_old _ _ E _ _ Hx) as (x' & Hx' & S1).
  exists x'. split; [done|apply (ns_time _ _ S1)].
Qed.

Lemma app_fuzzing_keeps_accumulated_time_witness :
  ∃ x', example_sampled.2 !! 1 = Some x' ∧
        accumulated_time x' = accumulated_time example_gold.
Proof.
  apply (app_fuzzing_keeps_accumulated_time default_config 5 1
           example_red_root example_sampled.1 example_sampled.2
           example_gold);
    vm_compute; reflexivity.
Defined.

(** ** The colouring protocol keeps the invariant *)

Lemma match_node_states_evolves st cs : ∀ h b h',
  match_node_states st cs h = Ok (b, h') → evolves h h'.
Proof.
  induction cs as [|c cs IH]; intros h b h' H; simpl in H.
  - inv_result. apply evolves_refl.
  - apply bind_Ok in H as (y & Hy & H). case_bool_decide; [by eapply IH|].
    apply bind_Ok in H as (h1 & Hh1 & H). injection H as <- <-.
    eapply dye_evolves; [|done]. by left.
Qed.

(** The flag [phantom] is set on a node made since [h]: a Red node that has
    not been simulated and has no block child. *)
Lemma evolves_set_phantom_fresh c y (h h2 : list TreeNode) :
  evolves h h2 → length h ≤ c → h2 !! c = Some y →
  colour y = R → sim_try y = 0 →
  (∀ a, dict_get (KAddr a) (children y) = None) →
  evolves h (update (set_phantom true) c h2).
Proof.
  intros E Hc Hy HR Hs Hnone.
  assert (∀ i z', update (set_phantom true) c h2 !! i = Some z' →
            ∃ z, h2 !! i = Some z ∧ colour z' = colour z ∧
                 children z' = children z ∧ sim_win z' = sim_win z ∧
                 parent z' = parent z ∧ addr z' = addr z ∧
                 sim_try z' = sim_try z ∧
                 (phantom z' = true → i = c ∨ phantom z = true)) as Hback.
  { intros i z' Hz'. apply update_lookup_Some in Hz' as (z & Hz & [->|[-> ->]]);
      exists z; split_and!; auto. }
  assert (∀ i z, h2 !! i = Some z →
            ∃ z', update (set_phantom true) c h2 !! i = Some z' ∧
                  colour z' = colour z ∧ children z' = children z) as Hfwd.
  { intros i z Hz. rewrite update_lookup, Hz.
    case_decide; simpl; eexists; split_and!; done. }
  split.
  - rewrite update_length. apply (ev_len _ _ E).
  - intros i x Hx. destruct (ev_old _ _ E _ _ Hx) as (x' & Hx' & S1).
    exists x'. split; [|done]. rewrite update_lookup, decide_False; [done|].
    apply lookup_lt_Some in Hx. lia.
  - intros g z' Hg Hz' HG.
    destruct (Hback _ _ Hz') as (z & Hz & Hcol & _ & Hw & _).
    destruct (ev_new_gold _ _ E g z) as (Hwin & r & xr & Hr & HRr & Hsim & Hnew);
      [done|done|congruence|].
    split; [congruence|].
    destruct (Hfwd _ _ Hr) as (xr' & Hxr' & Hcol' & Hch').
    exists r, xr'. split_and!; [done|congruence|by rewrite Hch'|done].
  - intros i z' Hi Hz' Hp.
    destruct (Hback _ _ Hz') as (z & Hz & Hcol & Hch & _ & _ & _ & Hst & Hph).
    rewrite Hcol, Hch, Hst. destruct (Hph Hp) as [->|Hpz].
    + by simplify_eq.
    + by apply (ev_new_phantom _ _ E i z).
  - intros i z' p Hi Hz' Hp.
    destruct (Hback _ _ Hz') as (z & Hz & _ & _ & _ & Hpar & _).
    rewrite Hpar in Hp.
    destruct (ev_new_parent _ _ E _ _ _ Hi Hz Hp) as (xp & k & Hxp & Hk).
    destruct (Hfwd _ _ Hxp) as (xp' & Hxp' & _ & Hch').
    exists xp', k. split; [done|by rewrite Hch'].
  - intros i z' p Hi Hz' Hp.
    destruct (Hback _ _ Hz') as (z & Hz & _ & _ & _ & Hpar & _).
    rewrite Hpar in Hp. by apply (ev_new_older _ _ E i z p).
  - intros i z' Hi Hz'.
    destruct (Hback _ _ Hz') as (z & Hz & _ & Hch & _). rewrite Hch.
    by apply (ev_new_nodup _ _ E i z).
  - intros i z' a c' Hz' Hc'.
    destruct (Hback _ _ Hz') as (z & Hz & _ & Hch & _). rewrite Hch in Hc'.
    destruct (ev_addr_child _ _ E _ _ _ _ Hz Hc')
      as [?|(Hge & y' & Hy' & HG & Ha)]; [by left|].
    right. split; [done|].
    rewrite update_lookup, Hy'. case_decide; simpl; eexists; split_and!; done.
  - intros i z' g Hz' Hg.
    destruct (Hback _ _ Hz') as (z & Hz & _ & Hch & _). rewrite Hch in Hg.
    destruct (ev_sim_child _ _ E _ _ _ Hz Hg)
      as [?|(Hge & y' & Hy' & HG)]; [by left|].
    right. split; [done|].
    rewrite update_lookup, Hy'. case_decide; simpl; eexists; split_and!; done.
Qed.

Lemma add_phantom_evolves p st h h' :
  (∀ x, h !! p = Some x → phantom x = false) →
  add_phantom p st h = Ok h' → evolves h h'.
Proof.
  unfold add_phantom. intros Hph H.
  apply bind_Ok in H as (x & Hx%node_Ok & H).
  apply bind_Ok in H as (u & Hno%debug_assertion_Ok & H).
  apply negb_true_iff in Hno. unfold dict_mem in Hno.
  destruct (dict_get (KAddr (st_addr st)) (children x)) eqn:Hget; [done|].
  simpl in H. apply bind_Ok in H as (h1 & Hh1 & H).
  apply add_child_spec in Hh1 as (x1 & Hx1 & ->).
  rewrite lookup_app_l in Hx1 by (by eapply lookup_lt_Some).
  simplify_eq. fold (with_new_child (st_addr st) p x h) in H.
  pose proof (lookup_lt_Some _ _ _ Hx) as Hp.
  pose proof (with_new_child_lookup (st_addr st) p x h) as Hlook.
  set (h1 := with_new_child _ p x h) in *.
  assert (evolves h h1) as E1 by (apply evolves_new_child; auto).
  apply bind_Ok in H as (x1 & Hx1%node_Ok & H).
  rewrite Hlook, decide_True in Hx1 by done. simplify_eq. simpl in H.
  rewrite dict_get_set_eq in H. simpl in H.
  apply bind_Ok in H as (h2 & Hh2 & H).
  assert (evolves h1 h2) as E2 by (eapply dye_evolves; [by left|done]).
  apply dye_spec in Hh2 as (xc & Hxc & _ & [[? _]|(_ & _ & ->)]); [done|].
  rewrite Hlook, decide_False, decide_True in Hxc by (done || lia).
  simplify_eq.
  pose proof (dyed_red_lookup (Some st) None (length h)
                (TreeNode_init (st_addr st) (Some p)) h1) as Hlook2.
  assert (h1 !! length h = Some (TreeNode_init (st_addr st) (Some p)))
    as Hc1 by (by rewrite Hlook, decide_False, decide_True by (done || lia)).
  assert (length h1 = S (length h)) as Hl1.
  { subst h1. unfold with_new_child.
    rewrite update_length, length_app. simpl. lia. }
  apply bind_Ok in H as (x2 & Hx2%node_Ok & H).
  rewrite Hlook2 in Hx2 by done.
  rewrite decide_False, decide_False in Hx2 by lia.
  rewrite Hlook, decide_True in Hx2 by done. simplify_eq. simpl in H.
  rewrite dict_get_set_eq in H.
  apply bind_Ok in H as (y & Hy%node_Ok & H). injection H as <-.
  rewrite Hlook2 in Hy by done.
  rewrite decide_False, decide_True in Hy by lia. simplify_eq.
  eapply (evolves_set_phantom_fresh _ _ h); [by eapply evolves_trans|done| |..].
  - rewrite Hlook2 by done. rewrite decide_False, decide_True by lia. done.
  - done.
  - done.
  - intros a. done.
Qed.

Lemma dye_siblings_loop_evolves sts : ∀ p h h',
  (∀ x, h !! p = Some x → phantom x = false) →
  dye_siblings_loop sts p h = Ok h' → evolves h h'.
Proof.
  induction sts as [|st sts IH]; intros p h h' Hph H; simpl in H.
  - inv_result. apply evolves_refl.
  - apply bind_Ok in H as (x & Hx%node_Ok & H).
    apply bind_Ok in H as (cs & Hcs & H).
    apply bind_Ok in H as ([matched h1] & Hm%match_node_states_evolves & H).
    apply bind_Ok in H as (h2 & Hh2 & H).
    assert (∀ h0, evolves h h0 → ∀ x0, h0 !! p = Some x0 → phantom x0 = false)
      as Hkeep.
    { intros h0 E0 x0 Hx0. destruct (ev_old _ _ E0 _ _ Hx) as (x' & Hx' & S1).
      simplify_eq. eapply node_step_not_phantom; [done|]. by apply Hph. }
    assert (evolves h1 h2) as E2.
    { destruct matched; [inv_result; apply evolves_refl|].
      eapply add_phantom_evolves; [|done]. by apply Hkeep. }
    assert (evolves h h2) as E by (by eapply evolves_trans).
    eapply evolves_trans; [done|]. eapply IH; [|done]. by apply Hkeep.
Qed.

Lemma dye_siblings_evolves symex ROOT fuel child h h' :
  tree_inv ROOT h →
  (∀ x, h !! child = Some x → colour x ≠ G) →
  dye_siblings symex fuel child h = Ok h' → evolves h h'.
Proof.
  unfold dye_siblings. intros I HnG H.
  apply bind_Ok in H as (sts & Hsts & H).
  apply bind_Ok in H as (x & Hx%node_Ok & H).
  apply bind_Ok in H as (p & Hp & H).
  destruct sts as [|st [|st' sts]].
  - eapply evolves_trans; [|by eapply mark_fully_explored_evolves].
    apply evolves_update. intros ? _. split; [|done]. node_step_auto.
  - apply bind_Ok in H as (u & _ & H). eapply dye_evolves; [by right|done].
  - apply bind_Ok in H as (h1 & Hh1 & H).
    apply bind_Ok in H as (xp & _ & H). apply bind_Ok in H as (cs & _ & H).
    apply bind_Ok in H as (u & _ & H). injection H as <-.
    eapply dye_siblings_loop_evolves; [|done].
    (* the parent has [child] as a block child, so it is not a phantom *)
    destruct (parent x) as [p'|] eqn:Epar; [|done]. injection Hp as ->.
    destruct (ti_parent _ _ I _ _ _ Hx Epar) as (xp' & k & Hxp' & Hk).
    intros ? ?. simplify_eq. destruct k as [a|].
    + eapply tree_inv_parent_not_phantom; [done|eauto|done].
    + destruct (ti_sim _ _ I _ _ _ Hxp' Hk) as (y & Hy & HG). simplify_eq.
      by destruct (HnG _ Hx).
Qed.

(** ** Rounds keep the invariant *)

Section rounds.
Variable symex : State → list State.
Variable blank_state : Z → State.
Variable execute : list byte → list byte * list byte * Z.
Variable tape : nat → nat.
Variable eval_uct : UCT → Q.
Variable cfg : Config.

Lemma selection_loop_evolves fuel inner ROOT : ∀ n g h t g' h',
  tree_inv ROOT h →
  selection_loop symex tape eval_uct cfg fuel inner ROOT n g h
    = Ok (t, g', h') →
  evolves h h'.
Proof.
  induction fuel as [|fuel IH]; intros n g h t g' h' I H; simpl in H.
  - apply bind_Ok in H as (x & Hx & H).
    destruct (is_colour G x); [|done]. injection H as <- <- <-.
    apply evolves_refl.
  - apply bind_Ok in H as (x & Hx & H).
    destruct (is_colour G x);
      [injection H as <- <- <-; apply evolves_refl|].
    apply bind_Ok in H as (leaf & Hleaf & H).
    apply bind_Ok in H as (h1 & Hh1 & H).
    assert (evolves h h1) as E1.
    { destruct leaf; [by eapply mark_fully_explored_evolves|].
      injection Hh1 as <-. apply evolves_refl. }
    apply bind_Ok in H as (x1 & Hx1%node_Ok & H).
    apply bind_Ok in H as (h2 & Hh2 & H).
    assert (evolves h1 h2) as E2.
    { unfold is_colour in Hh2. case_bool_decide as HW;
        [|injection Hh2 as <-; apply evolves_refl].
      eapply dye_siblings_evolves; [by eapply evolves_tree_inv| |done].
      intros ? ?. simplify_eq. congruence. }
    apply bind_Ok in H as (x2 & Hx2 & H).
    apply bind_Ok in H as (h3 & Hh3 & H).
    assert (evolves h2 h3) as E3.
    { case_bool_decide; [|injection Hh3 as <-; apply evolves_refl].
      destruct (parent x2); [|done].
      eapply evolves_trans; [|by eapply mark_fully_explored_evolves].
      apply evolves_update. intros ? _. split; [|done]. node_step_auto. }
    assert (evolves h h3) as E
      by (eapply evolves_trans; [|done]; by eapply evolves_trans).
    apply bind_Ok in H as (x3 & Hx3 & H).
    destruct (fully_explored x3); [by injection H as <- <- <-|].
    apply bind_Ok in H as ([c g1] & Hc & H).
    destruct c as [c|]; [|done].
    eapply evolves_trans; [done|]. eapply IH; [|done].
    by eapply evolves_tree_inv.
Qed.

Lemma mcts_evolves fuel ROOT g h g' h' :
  tree_inv ROOT h →
  mcts symex execute tape eval_uct cfg fuel ROOT g h = Ok (g', h') →
  evolves h h'.
Proof.
  intros I H. unfold mcts, selection in H.
  apply bind_Ok in H as ([[n g1] h1] & Hsel & H).
  apply selection_loop_evolves in Hsel; [|done].
  case_bool_decide; [by injection H as <- <-|].
  apply bind_Ok in H as ([[traces g2] h2] & Hsim%simulation_evolves & H).
  apply bind_Ok in H as ([are_new h3] & Hexp & H).
  assert (evolves h h2) as E2 by (by eapply evolves_trans).
  pose proof (evolves_tree_inv _ _ _ E2 I) as I2.
  apply expansion_evolves in Hexp as [E3 Hpaths].
  2:{ intros x Hx. destruct (ti_root _ _ I2) as (r & Hr & _ & Hp).
      by simplify_eq. }
  apply bind_Ok in H as (u & _ & H).
  apply bind_Ok in H as (h4 & Hh4 & H). injection H as <- <-.
  eapply evolves_trans; [done|]. eapply evolves_trans; [done|].
  eapply propagation_evolves; [|done..]. by eapply evolves_tree_inv.
Qed.

Lemma run_loop_evolves fuel inner ROOT : ∀ g h g' h',
  tree_inv ROOT h →
  run_loop symex execute tape eval_uct cfg fuel inner ROOT g h
    = Ok (g', h') →
  evolves h h'.
Proof.
  induction fuel as [|fuel IH]; intros g h g' h' I H; simpl in H.
  - apply bind_Ok in H as (b & Hb & H). destruct b; [done|].
    injection H as <- <-. apply evolves_refl.
  - apply bind_Ok in H as (b & Hb & H).
    destruct b; [|injection H as <- <-; apply evolves_refl].
    apply bind_Ok in H as ([g1 h1] & Hm & H).
    pose proof (mcts_evolves _ _ _ _ _ _ I Hm) as E1.
    eapply evolves_trans; [done|]. eapply IH; [|done].
    by eapply evolves_tree_inv.
Qed.

(** The heap a run starts from satisfies the invariant, with the
    module-level [ROOT] as its root. *)
Lemma initial_heap_tree_inv : tree_inv 0 initial_heap.
Proof.
  split.
  - eexists. split; [reflexivity|done].
  - intros [|i] x a c Hx Hc; simpl in Hx; by simplify_eq.
  - intros [|i] x g Hx Hg; simpl in Hx; by simplify_eq.
  - intros [|i] x Hx; simpl in Hx; simplify_eq. constructor.
  - intros [|i] y p Hy Hp; simpl in Hy; by simplify_eq.
  - intros [|i] y p Hy Hp; simpl in Hy; by simplify_eq.
  - intros [|i] x Hx Hp; simpl in Hx; by simplify_eq.
  - intros [|i] y Hy HG; simpl in Hy; by simplify_eq.
Qed.

(** A fresh node without a parent. *)
Lemma evolves_alloc_root a (h : list TreeNode) :
  evolves h (h ++ [TreeNode_init a None]).
Proof.
  assert (∀ i y, (h ++ [TreeNode_init a None]) !! i = Some y →
            h !! i = Some y ∨ (i = length h ∧ y = TreeNode_init a None))
    as Hlook.
  { intros i y [Hy|[Hge Hy]]%lookup_app_Some; [by left|]. right.
    apply list_lookup_singleton_Some in Hy as [Hi <-].
    split; [lia|done]. }
  split.
  - rewrite length_app. lia.
  - intros i x Hx. exists x.
    split; [by apply lookup_app_l_Some|apply node_step_refl].
  - intros g y Hg Hy HG. destruct (Hlook _ _ Hy) as [Hy'|[-> ->]]; [|done].
    apply lookup_lt_Some in Hy'. lia.
  - intros g y Hg Hy Hp. destruct (Hlook _ _ Hy) as [Hy'|[-> ->]]; [|done].
    apply lookup_lt_Some in Hy'. lia.
  - intros g y p Hg Hy Hp. destruct (Hlook _ _ Hy) as [Hy'|[-> ->]]; [|done].
    apply lookup_lt_Some in Hy'. lia.
  - intros g y p Hg Hy Hp. destruct (Hlook _ _ Hy) as [Hy'|[-> ->]]; [|done].
    apply lookup_lt_Some in Hy'. lia.
  - intros g y Hg Hy. destruct (Hlook _ _ Hy) as [Hy'|[-> ->]];
      [|simpl; constructor].
    apply lookup_lt_Some in Hy'. lia.
  - intros i x' a' c Hx' Hc. left.
    destruct (Hlook _ _ Hx') as [?|[-> ->]]; [eauto|done].
  - intros i x' g Hx' Hg. left.
    destruct (Hlook _ _ Hx') as [?|[-> ->]]; [eauto|done].
Qed.

(** [init_root] moves the root: the new root is Red and not a phantom, and
    the rest of the invariant is carried over. *)
Lemma init_root_tree_inv traces ROOT0 h ROOT h' :
  tree_inv ROOT0 h →
  init_root blank_state traces h = Ok (ROOT, h') →
  evolves h h' ∧ tree_inv ROOT h'.
Proof.
  intros I H. unfold init_root in H.
  apply bind_Ok in H as (fs & _ & H). destruct fs as [|main_addr fs]; [done|].
  apply bind_Ok in H as (u & _ & H). simpl in H.
  apply bind_Ok in H as (h1 & Hh1 & H). injection H as <- <-.
  pose proof (evolves_alloc_root main_addr h) as E0.
  assert (evolves (h ++ [TreeNode_init main_addr None]) h1) as E1
    by (eapply dye_evolves; [by left|done]).
  assert (evolves h h1) as E by (by eapply evolves_trans).
  split; [done|].
  pose proof (evolves_tree_inv _ _ _ E I) as I1.
  destruct I1. split; try done.
  apply dye_spec in Hh1 as (x & Hx & HW & [[? _]|(_ & Hget & ->)]); [done|].
  rewrite (dyed_red_lookup _ _ _ _ _ _ Hx).
  pose proof (lookup_lt_Some _ _ _ Hx).
  rewrite decide_False by lia. rewrite decide_True by done.
  eexists. split; [done|]. simpl. split; [done|].
  rewrite lookup_app_r, Nat.sub_diag in Hx by lia. simpl in Hx.
  by simplify_eq.
Qed.

Lemma initialisation_tree_inv fuel g ROOT0 h ROOT g' h' :
  tree_inv ROOT0 h →
  initialisation blank_state execute tape cfg fuel g h = Ok (ROOT, g', h') →
  evolves h h' ∧ tree_inv ROOT h'.
Proof.
  intros I H. unfold initialisation in H.
  apply bind_Ok in H as ([[traces g1] h1] & Hsim%simulation_evolves & H).
  apply bind_Ok in H as ([root h2] & Hroot & H).
  apply bind_Ok in H as ([are_new h3] & Hexp & H).
  apply bind_Ok in H as (r & _ & H). apply bind_Ok in H as (s & _ & H).
  apply bind_Ok in H as (h4 & Hh4 & H). injection H as <- <- <-.
  apply init_root_tree_inv with (ROOT0 := ROOT0) in Hroot as [E2 I2];
    [|by eapply evolves_tree_inv].
  apply expansion_evolves in Hexp as [E3 Hpaths].
  2:{ intros x Hx. destruct (ti_root _ _ I2) as (r' & Hr' & _ & Hp).
      by simplify_eq. }
  pose proof (evolves_tree_inv _ _ _ E3 I2) as I3.
  pose proof (propagation_evolves _ _ _ _ _ _ _ I3 Hpaths Hh4) as E4.
  split; [|by eapply evolves_tree_inv].
  eapply evolves_trans; [done|]. eapply evolves_trans; [done|].
  by eapply evolves_trans.
Qed.

(** Every state of a run satisfies the invariant. *)
Lemma reachable_tree_inv ROOT g h :
  reachable symex blank_state execute tape eval_uct cfg ROOT g h →
  tree_inv ROOT h.
Proof.
  induction 1 as [fuel ROOT g h Hinit|fuel ROOT g h g' h' _ IH Hm].
  - by destruct (initialisation_tree_inv _ _ _ _ _ _ _
                   initial_heap_tree_inv Hinit).
  - eapply evolves_tree_inv; [|done]. by eapply mcts_evolves.
Qed.
End rounds.

(** ** The colours and the wins of Gold nodes, along a run *)

(** The colour rules between the heap [h] before and the heap [h'] after:
    every node is kept, with its parent and its children; its colour is
    kept too, except that a White node may have become Red or Black; and a
    Gold node made in between is the Simulation child of a Red node that
    was White before or was made in between as well. *)
Definition colour_step (h h' : list TreeNode) : Prop :=
  (∀ i x, h !! i = Some x →
     ∃ x', h' !! i = Some x' ∧
       parent x' = parent x ∧
       (∀ k c, dict_get k (children x) = Some c →
               dict_get k (children x') = Some c) ∧
       (colour x' = colour x ∨
        (colour x = W ∧ (colour x' = R ∨ colour x' = B)))) ∧
  (∀ g y, length h ≤ g → h' !! g = Some y → colour y = G →
     ∃ r xr, h' !! r = Some xr ∧ colour xr = R ∧
             dict_get Simulation (children xr) = Some g ∧
             (length h ≤ r ∨ ∃ x, h !! r = Some x ∧ colour x = W)).

Lemma evolves_colour_step h h' : evolves h h' → colour_step h h'.
Proof.
  intros E. split.
  - intros i x Hx. destruct (ev_old _ _ E _ _ Hx) as (x' & Hx' & S1).
    exists x'. split_and!; [done|apply S1| |apply S1].
    intros k c Hc. by eapply node_step_entry.
  - intros g y Hg Hy HG. by apply (ev_new_gold _ _ E g y).
Qed.

(** What [record_simulation] writes: the node gets one more try, and one
    more win for a new path; its Simulation child, when it has one, gets
    one more try and keeps its wins. *)
Lemma record_simulation_spec n new h h' x :
  record_simulation n new h = Ok h' → h !! n = Some x →
  (∀ s, dict_get Simulation (children x) = Some s → s ≠ n) →
  (∃ x', h' !! n = Some x' ∧ sim_try x' = sim_try x + 1 ∧
         sim_win x' = sim_win x + (if new then 1 else 0)) ∧
  ∀ s y, dict_get Simulation (children x) = Some s → h !! s = Some y →
    ∃ y', h' !! s = Some y' ∧ sim_try y' = sim_try y + 1 ∧
          sim_win y' = sim_win y ∧ colour y' = colour y.
Proof.
  unfold record_simulation. intros H Hx Hne.
  apply bind_Ok in H as (x1 & Hx1%node_Ok & H).
  rewrite Hx in Hx1. injection Hx1 as <-.
  apply bind_Ok in H as (x2 & Hx2%node_Ok & H).
  rewrite update_lookup, decide_True, Hx in Hx2 by done.
  simpl in Hx2. injection Hx2 as <-.
  apply bind_Ok in H as (x3 & Hx3%node_Ok & H).
  rewrite !update_lookup, !decide_True, Hx in Hx3 by done.
  simpl in Hx3. injection Hx3 as <-. simpl in H.
  destruct (dict_get Simulation (children x)) as [s|] eqn:Hs.
  - apply bind_Ok in H as (y0 & Hy0%node_Ok & H). injection H as <-.
    pose proof (Hne s eq_refl) as Hsn.
    rewrite !update_lookup, !decide_False in Hy0 by done.
    split.
    + eexists. rewrite !update_lookup, decide_False, !decide_True, Hx by done.
      simpl. split; [reflexivity|]. done.
    + intros s' y Hs' Hy. simplify_eq.
      eexists. rewrite !update_lookup, decide_True, !decide_False, Hy0 by done.
      simpl. split; [reflexivity|]. done.
  - injection H as <-. split.
    + eexists. rewrite !update_lookup, !decide_True, Hx by done.
      simpl. split; [reflexivity|]. done.
    + intros s' y Hs'. done.
Qed.

Section run.
Variable symex : State → list State.
Variable blank_state : Z → State.
Variable execute : list byte → list byte * list byte * Z.
Variable tape : nat → nat.
Variable eval_uct : UCT → Q.
Variable cfg : Config.

(** C9. The colours along a run.  From the heap the program starts with
    to the heap after [initialisation], and from the heap before any
    round of [mcts] to the heap after it: no node is removed (every node
    is kept, with its parent and its children); a node that is not White
    keeps its colour; a White node stays White or becomes Red or Black;
    and every Gold node made in between is the Simulation child of a Red
    node that was White or did not exist before. *)
Theorem colours_semilattice :
  (∀ fuel ROOT g h,
     initialisation blank_state execute tape cfg fuel
       initial_globals initial_heap = Ok (ROOT, g, h) →
     colour_step initial_heap h) ∧
  (∀ fuel ROOT g h g' h',
     reachable symex blank_state execute tape eval_uct cfg ROOT g h →
     mcts symex execute tape eval_uct cfg fuel ROOT g h = Ok (g', h') →
     colour_step h h').
Proof.
  split.
  - intros fuel ROOT g h Hinit. apply evolves_colour_step.
    by destruct (initialisation_tree_inv _ _ _ _ _ _ _ _ _ _ _
                   initial_heap_tree_inv Hinit).
  - intros fuel ROOT g h g' h' Hreach Hm. apply evolves_colour_step.
    eapply mcts_evolves; [|done]. by eapply reachable_tree_inv.
Qed.

(** C10. In every state of a run, the root and the block children, which
    are the nodes a trace walks through, are not Gold; forward propagation
    through such a node, [record_simulation], gives its Simulation child,
    which is Gold, one more [sim_try] and leaves the child's [sim_win] at
    0; and every Gold node has [sim_win = 0], so whenever the score of a
    Gold node is given by the UCT formula, its exploit term
    [sim_win / sel_try] is 0. *)
Theorem gold_sim_win_zero ROOT g h :
  reachable symex blank_state execute tape eval_uct cfg ROOT g h →
  (∃ r, h !! ROOT = Some r ∧ colour r ≠ G) ∧
  (∀ i x a c, h !! i = Some x → dict_get (KAddr a) (children x) = Some c →
     ∃ y, h !! c = Some y ∧ colour y ≠ G) ∧
  (∀ n x new h' s,
     h !! n = Some x → colour x ≠ G →
     dict_get Simulation (children x) = Some s →
     record_simulation n new h = Ok h' →
     ∃ y y', h !! s = Some y ∧ colour y = G ∧
             h' !! s = Some y' ∧ colour y' = G ∧
             sim_try y' = sim_try y + 1 ∧ sim_win y' = 0) ∧
  ∀ n y, h !! n = Some y → colour y = G →
    sim_win y = 0 ∧
    ∀ c u, score c n h = Ok (Finite u) → (exploit u == 0)%Q.
Proof.
  intros I%reachable_tree_inv. split_and!.
  - destruct (ti_root _ _ I) as (r & Hr & HG & _). eauto.
  - intros i x a c Hx Hc.
    destruct (ti_block _ _ I _ _ _ _ Hx Hc) as (y & Hy & HG & _). eauto.
  - intros n x new h' s Hx HnG Hs Hrec.
    destruct (ti_sim _ _ I _ _ _ Hx Hs) as (y & Hy & HG).
    destruct (record_simulation_spec _ _ _ _ _ Hrec Hx) as [_ Hsim].
    { intros s' Hs' ->. rewrite Hs in Hs'. injection Hs' as <-.
      rewrite Hx in Hy. injection Hy as <-. done. }
    destruct (Hsim _ _ Hs Hy) as (y' & Hy' & Htry & Hwin & Hcol).
    exists y, y'. split_and!; [done..|congruence|done|].
    rewrite Hwin. by apply (ti_gold_win _ _ I s y).
  - intros n y Hy HG. pose proof (ti_gold_win _ _ I _ _ Hy HG) as Hw.
    split; [done|].
    intros c u H. unfold score in H. apply node_Ok in Hy. rewrite Hy in H.
    simpl in H. destruct (fully_explored y); [done|].
    case_bool_decide; [done|]. destruct (is_root y); [done|].
    apply bind_Ok in H as (p & _ & H). apply bind_Ok in H as (u1 & _ & H).
    apply bind_Ok in H as (t & _ & H). injection H as <-. simpl.
    rewrite Hw. unfold Qdiv, Q_of_nat. simpl. apply Qmult_0_l.
Qed.
End run.

Lemma example_start_reachable :
  reachable example_symex example_state example_execute (λ n, n) exploit
    small_config example_start.1.1 example_start.1.2 example_start.2.
Proof. apply (reachable_init _ _ _ _ _ _ 10). vm_compute. reflexivity. Qed.

Lemma colours_semilattice_witness :
  colour_step example_start.2 example_round.2.
Proof.
  apply (proj2 (colours_semilattice example_symex example_state
                  example_execute (λ n, n) exploit small_config)
           10 example_start.1.1 example_start.1.2 example_start.2
           example_round.1 example_round.2).
  - exact example_start_reachable.
  - vm_compute. reflexivity.
Defined.

Lemma gold_sim_win_zero_witness :
  (∃ r, example_start.2 !! example_start.1.1 = Some r ∧ colour r ≠ G) ∧
  (∀ i x a c, example_start.2 !! i = Some x →
     dict_get (KAddr a) (children x) = Some c →
     ∃ y, example_start.2 !! c = Some y ∧ colour y ≠ G) ∧
  (∀ n x new h' s,
     example_start.2 !! n = Some x → colour x ≠ G →
     dict_get Simulation (children x) = Some s →
     record_simulation n new example_start.2 = Ok h' →
     ∃ y y', example_start.2 !! s = Some y ∧ colour y = G ∧
             h' !! s = Some y' ∧ colour y' = G ∧
             sim_try y' = sim_try y + 1 ∧ sim_win y' = 0) ∧
  ∀ n y, example_start.2 !! n = Some y → colour y = G →
    sim_win y = 0 ∧
    ∀ c u, score c n example_start.2 = Ok (Finite u) → (exploit u == 0)%Q.
Proof.
  apply (gold_sim_win_zero example_symex example_state example_execute
           (λ n, n) exploit small_config
           example_start.1.1 example_start.1.2 example_start.2).
  exact example_start_reachable.
Defined.

(** ** The contract of the colouring protocol *)

Lemma nodes_forallb_filter (P : TreeNode → bool) (h : list TreeNode)
    (l : list nat) cs :
  nodes h l = Ok cs →
  forallb P (filter (λ c, colour c ≠ G) cs) = true →
  ∀ c y, c ∈ l → h !! c = Some y → colour y ≠ G → P y = true.
Proof.
  revert cs. induction l as [|n l IH]; intros cs H; simpl in H.
  - inv_result. intros _ c y Hc. by apply elem_of_nil in Hc.
  - apply bind_Ok in H as (x & Hx%node_Ok & H).
    apply bind_Ok in H as (xs & Hxs & H). inv_result.
    rewrite filter_cons.
    intros Hall c y [->|Hc]%elem_of_cons Hy Hcol.
    + simplify_eq. rewrite decide_True in Hall by done.
      simpl in Hall. by apply andb_true_iff in Hall as [? _].
    + eapply (IH _ Hxs); [|done..]. case_decide; [|done].
      simpl in Hall. by apply andb_true_iff in Hall as [_ ?].
Qed.

Lemma dict_get_values k c (d : list (key * nat)) :
  dict_get k d = Some c → c ∈ dict_values d.
Proof.
  intros [i Hi]%dict_get_lookup. unfold dict_values.
  apply list_elem_of_fmap. exists (k, c). split; [done|].
  by eapply list_elem_of_lookup_2.
Qed.

Lemma dict_values_get c (d : list (key * nat)) :
  NoDup d.*1 → c ∈ dict_values d → ∃ k, dict_get k d = Some c.
Proof.
  intros Hd ([k c'] & -> & [i Hi]%list_elem_of_lookup_1)%list_elem_of_fmap.
  exists k. by eapply dict_lookup_get.
Qed.

Lemma non_gold_spec l : ∀ h cs,
  non_gold l h = Ok cs →
  ∀ c, c ∈ cs → c ∈ l ∧ ∃ y, h !! c = Some y ∧ colour y ≠ G.
Proof.
  induction l as [|n l IH]; intros h cs H; simpl in H.
  - inv_result. intros c Hc. by apply elem_of_nil in Hc.
  - apply bind_Ok in H as (x & Hx%node_Ok & H).
    apply bind_Ok in H as (ns & Hns & H). injection H as <-.
    intros c Hc. unfold is_colour in Hc. case_bool_decide as HG.
    + destruct (IH _ _ Hns c Hc) as [? ?]. split; [by right|done].
    + apply elem_of_cons in Hc as [->|Hc].
      * split; [by left|eauto].
      * destruct (IH _ _ Hns c Hc) as [? ?]. split; [by right|done].
Qed.

Lemma match_node_states_matched st cs : ∀ h h',
  match_node_states st cs h = Ok (true, h') →
  ∃ c y, c ∈ cs ∧ h !! c = Some y ∧ addr y = st_addr st.
Proof.
  induction cs as [|c cs IH]; intros h h' H; simpl in H; [by inv_result|].
  apply bind_Ok in H as (y & Hy%node_Ok & H). case_bool_decide as Ha.
  - destruct (IH _ _ H) as (c' & y' & Hc' & Hy'). exists c', y'.
    split; [by right|done].
  - exists c, y. split_and!; [by left|done|].
    destruct (decide (addr y = st_addr st)); [done|]. by destruct Ha.
Qed.

Lemma add_phantom_entry p st h h' :
  add_phantom p st h = Ok h' →
  ∃ xp' c, h' !! p = Some xp' ∧
           dict_get (KAddr (st_addr st)) (children xp') = Some c.
Proof.
  unfold add_phantom. intros H.
  apply bind_Ok in H as (x & Hx & H). apply bind_Ok in H as (u & _ & H).
  simpl in H. apply bind_Ok in H as (h1 & _ & H).
  apply bind_Ok in H as (x1 & _ & H). apply bind_Ok in H as (c1 & _ & H).
  apply bind_Ok in H as (h2 & _ & H).
  apply bind_Ok in H as (x2 & Hx2%node_Ok & H).
  destruct (dict_get (KAddr (st_addr st)) (children x2)) as [c|] eqn:Hc;
    [|done].
  apply bind_Ok in H as (y & _ & H). injection H as <-.
  rewrite update_lookup, Hx2. case_decide; simpl; eauto.
Qed.

(** After the loop of [dye_siblings], the parent has a block child at the
    address of every sibling state. *)
Lemma dye_siblings_loop_entries ROOT sts : ∀ p h h',
  tree_inv ROOT h →
  (∀ x, h !! p = Some x → phantom x = false) →
  dye_siblings_loop sts p h = Ok h' →
  ∀ st, st ∈ sts →
    ∃ xp' c, h' !! p = Some xp' ∧
             dict_get (KAddr (st_addr st)) (children xp') = Some c.
Proof.
  induction sts as [|st0 sts IH]; intros p h h' I Hph H st Hst;
    [by apply elem_of_nil in Hst|].
  pose proof H as Hloop. simpl in H.
  apply bind_Ok in H as (x & Hx%node_Ok & H).
  apply bind_Ok in H as (cs & Hcs & H).
  apply bind_Ok in H as ([matched h1] & Hm & H).
  apply bind_Ok in H as (h2 & Hh2 & H).
  pose proof (match_node_states_evolves _ _ _ _ _ Hm) as E1.
  assert (∀ h0, evolves h h0 → ∀ x0, h0 !! p = Some x0 → phantom x0 = false)
    as Hkeep.
  { intros h0 E0 x0 Hx0. destruct (ev_old _ _ E0 _ _ Hx) as (x' & Hx' & S1).
    simplify_eq. eapply node_step_not_phantom; [done|]. by apply Hph. }
  assert (evolves h1 h2) as E2.
  { destruct matched; [inv_result; apply evolves_refl|].
    eapply add_phantom_evolves; [|done]. by apply Hkeep. }
  assert (evolves h h2) as E12 by (by eapply evolves_trans).
  pose proof (evolves_tree_inv _ _ _ E12 I) as I2.
  apply elem_of_cons in Hst as [->|Hst];
    [|eapply IH; [done|by apply Hkeep|done..]].
  (* the entry for [st0] is there after this turn, and stays *)
  assert (∃ xp2 c, h2 !! p = Some xp2 ∧
            dict_get (KAddr (st_addr st0)) (children xp2) = Some c)
    as (xp2 & c & Hxp2 & Hc).
  { destruct matched; [injection Hh2 as <-|by eapply add_phantom_entry].
    destruct (match_node_states_matched _ _ _ _ Hm) as (c & y & Hc & Hy & Ha).
    destruct (non_gold_spec _ _ _ Hcs c Hc) as (Hin & y' & Hy' & HG).
    simplify_eq.
    destruct (dict_values_get _ _ (ti_nodup _ _ I _ _ Hx) Hin) as [k Hk].
    destruct k as [a|].
    - destruct (ti_block _ _ I _ _ _ _ Hx Hk) as (y' & Hy' & _ & Hay).
      simplify_eq. destruct (ev_old _ _ E1 _ _ Hx) as (x1 & Hx1 & S1).
      exists x1, c. split; [done|]. rewrite <- Ha.
      by apply (ns_children _ _ S1).
    - destruct (ti_sim _ _ I _ _ _ Hx Hk) as (y' & Hy' & HG').
      by simplify_eq. }
  assert (evolves h2 h') as E3.
  { eapply dye_siblings_loop_evolves; [|done]. by apply Hkeep. }
  destruct (ev_old _ _ E3 _ _ Hxp2) as (xp' & Hxp' & S3).
  exists xp', c. split; [done|by apply (ns_children _ _ S3)].
Qed.

(** The claim as the specification words it, in the case where symbolic
    execution finds no successor: the node would have a colour other than
    White afterwards.  It is left White (and marked fully explored). *)
Lemma dye_siblings_leaves_white :
  ¬ (∀ symex fuel w h h' x x',
       h !! w = Some x → colour x = W →
       dye_siblings symex fuel w h = Ok h' →
       h' !! w = Some x' → colour x' ≠ W).
Proof.
  intros H.
  assert (∃ h' x x', example_start.2 !! 3 = Some x ∧ colour x = W ∧
            dye_siblings example_dead_symex 5 3 example_start.2 = Ok h' ∧
            h' !! 3 = Some x' ∧ colour x' = W)
    as (h' & x & x' & Hx & HW & Hd & Hx' & HW').
  { eexists _, _, _. split; [reflexivity|]. split; [reflexivity|].
    split; [vm_compute; reflexivity|]. split; reflexivity. }
  by apply (H _ _ _ _ _ _ _ Hx HW Hd Hx').
Qed.

(** C1 (amended). The contract of the colouring protocol, case by case on
    the successor states [sts] that [symex_to_match] stops with, for a White
    node [w] with parent [p] in a well-formed tree.  In every case no two
    Red children of [p] share an address.  With no successor, [w] stays
    White and is marked fully explored, and the marking goes on to [p]: [p]
    is marked fully explored, or it is not eligible.  With one successor,
    [w] is Black, carries that state, and the state is at the address of
    [w].  With two or more, [w] is Red, every non-Gold child of [p] is Red,
    and every successor state has a Red child of [p] under its address. *)
Theorem dye_siblings_contract symex ROOT fuel w h h' x p :
  tree_inv ROOT h →
  h !! w = Some x → colour x = W → parent x = Some p →
  dye_siblings symex fuel w h = Ok h' →
  ∃ sts x' xp',
    symex_to_match symex fuel w h = Ok sts ∧
    h' !! w = Some x' ∧ h' !! p = Some xp' ∧
    (∀ i j k1 c1 y1 k2 c2 y2,
       children xp' !! i = Some (k1, c1) →
       children xp' !! j = Some (k2, c2) →
       h' !! c1 = Some y1 → h' !! c2 = Some y2 →
       colour y1 = R → colour y2 = R → addr y1 = addr y2 → i = j) ∧
    match sts with
    | [] => colour x' = W ∧ fully_explored x' = true ∧ attempted h' p
    | [st] => colour x' = B ∧ state x' = Some st ∧ st_addr st = addr x
    | _ =>
        colour x' = R ∧
        (∀ k c y, dict_get k (children xp') = Some c → h' !! c = Some y →
                  colour y ≠ G → colour y = R) ∧
        (∀ st, st ∈ sts →
           ∃ c y, dict_get (KAddr (st_addr st)) (children xp') = Some c ∧
                  h' !! c = Some y ∧ colour y = R)
    end.
Proof.
  intros I Hx HW Hpar H.
  assert (evolves h h') as E.
  { eapply dye_siblings_evolves; [done| |done].
    intros ? ?. simplify_eq. congruence. }
  pose proof (evolves_tree_inv _ _ _ E I) as I'.
  destruct (ti_parent _ _ I _ _ _ Hx Hpar) as (xp & k & Hxp & Hk).
  destruct (ev_old _ _ E _ _ Hx) as (x' & Hx' & Sx).
  destruct (ev_old _ _ E _ _ Hxp) as (xp' & Hxp' & Sp).
  assert (phantom xp = false) as Hph.
  { destruct k as [a|].
    - apply (tree_inv_parent_not_phantom ROOT h xp a w I); [eauto|done].
    - destruct (ti_sim _ _ I _ _ _ Hxp Hk) as (y & Hy & HG).
      simplify_eq. congruence. }
  unfold dye_siblings in H.
  apply bind_Ok in H as (sts & Hsts & H).
  apply bind_Ok in H as (x0 & Hx0%node_Ok & H). simplify_eq.
  rewrite Hpar in H. simpl in H.
  exists sts, x', xp'. split_and!; [done..| |].
  { intros i j k1 c1 y1 k2 c2 y2 Hi Hj Hy1 Hy2 HR1 HR2 Haddr.
    pose proof (ti_nodup _ _ I' _ _ Hxp') as Hnd.
    pose proof (dict_lookup_get _ _ _ _ Hnd Hi) as Hg1.
    pose proof (dict_lookup_get _ _ _ _ Hnd Hj) as Hg2.
    assert (∀ k0 c y, dict_get k0 (children xp') = Some c →
              h' !! c = Some y → colour y = R → k0 = KAddr (addr y))
      as Hkey.
    { intros [a|] c y Hc Hy HR.
      - destruct (ti_block _ _ I' _ _ _ _ Hxp' Hc) as (y' & Hy' & _ & Ha).
        simplify_eq. done.
      - destruct (ti_sim _ _ I' _ _ _ Hxp' Hc) as (y' & Hy' & HG).
        simplify_eq. congruence. }
    rewrite (Hkey _ _ _ Hg1 Hy1 HR1) in Hi.
    rewrite (Hkey _ _ _ Hg2 Hy2 HR2) in Hj. rewrite <- Haddr in Hj.
    eapply (NoDup_lookup _ _ _ _ Hnd);
      rewrite list_lookup_fmap; [by rewrite Hi|by rewrite Hj]. }
  destruct sts as [|st [|st' sts]].
  - pose proof (mark_fully_explored_attempted _ _ _ _ H) as Hatt.
    apply mark_fully_explored_marks_only in H as [_ Hm].
    destruct (Hm w (set_fully_explored true x)) as (b & Hb & Htrue).
    { by rewrite update_lookup, Hx, decide_True. }
    simplify_eq. simpl. split_and!; [done| |done]. by apply Htrue.
  - apply bind_Ok in H as (u & Ha%debug_assertion_Ok & H).
    apply bool_decide_eq_true in Ha.
    apply dye_spec in H as (x0 & Hx0 & _ & [[_ ->]|(? & _)]); [|done].
    rewrite !update_lookup, Hx, !decide_True in Hx' by done.
    simpl in Hx'. simplify_eq. simpl. done.
  - apply bind_Ok in H as (h1 & Hloop & H).
    apply bind_Ok in H as (xp1 & Hxp1%node_Ok & H).
    apply bind_Ok in H as (cs & Hcs & H).
    apply bind_Ok in H as (u & Hall%debug_assertion_Ok & H).
    injection H as <-. simplify_eq.
    assert (∀ k c y, dict_get k (children xp1) = Some c → h1 !! c = Some y →
              colour y ≠ G → colour y = R) as Hred.
    { intros k0 c y Hc Hy HG.
      pose proof (nodes_forallb_filter _ _ _ _ Hcs Hall c y
                    (dict_get_values _ _ _ Hc) Hy HG) as HR.
      by apply bool_decide_eq_true in HR. }
    split_and!.
    + eapply Hred; [by eapply node_step_entry|done|].
      eapply node_step_not_gold; [done|congruence].
    + done.
    + intros st0 Hst.
      assert (∀ x0, h !! p = Some x0 → phantom x0 = false) as Hph0.
      { intros x0 Hx0. rewrite Hxp in Hx0. by injection Hx0 as <-. }
      destruct (dye_siblings_loop_entries _ _ _ _ _ I Hph0 Hloop st0 Hst)
        as (xp2 & c & Hxp2 & Hc). simplify_eq.
      destruct (ti_block _ _ I' _ _ _ _ Hxp1 Hc) as (y & Hy & HG & _).
      exists c, y. split_and!; [done..|]. by eapply Hred.
Qed.

Lemma example_start_tree_inv : tree_inv example_start.1.1 example_start.2.
Proof.
  eapply reachable_tree_inv. exact example_start_reachable.
Qed.

Lemma dye_siblings_contract_witness :
  ∃ sts x' xp',
    symex_to_match example_branch_symex 5 3 example_start.2 = Ok sts ∧
    example_dyed !! 3 = Some x' ∧ example_dyed !! 1 = Some xp' ∧
    (∀ i j k1 c1 y1 k2 c2 y2,
       children xp' !! i = Some (k1, c1) →
       children xp' !! j = Some (k2, c2) →
       example_dyed !! c1 = Some y1 → example_dyed !! c2 = Some y2 →
       colour y1 = R → colour y2 = R → addr y1 = addr y2 → i = j) ∧
    match sts with
    | [] => colour x' = W ∧ fully_explored x' = true ∧
            attempted example_dyed 1
    | [st] =>
        colour x' = B ∧ state x' = Some st ∧ st_addr st = addr example_white
    | _ =>
        colour x' = R ∧
        (∀ k c y, dict_get k (children xp') = Some c →
                  example_dyed !! c = Some y →
                  colour y ≠ G → colour y = R) ∧
        (∀ st, st ∈ sts →
           ∃ c y, dict_get (KAddr (st_addr st)) (children xp') = Some c ∧
                  example_dyed !! c = Some y ∧ colour y = R)
    end.
Proof.
  apply (dye_siblings_contract example_branch_symex example_start.1.1 5 3
           example_start.2 example_dyed example_white 1).
  - exact example_start_tree_inv.
  - reflexivity.
  - reflexivity.
  - reflexivity.
  - vm_compute. reflexivity.
Defined.

(** ** Termination of the climbs to the root *)

Lemma nodes_returns h l : nodes h l ≠ OutOfFuel.
Proof.
  induction l as [|n l IH]; simpl; [done|].
  unfold node. destruct (h !! n); simpl; [|done].
  destruct (nodes h l); simpl; done.
Qed.

(** [dye] never uses up its two levels of recursion. *)
Lemma dye_returns c st smp n h : dye c st smp n h ≠ OutOfFuel.
Proof.
  unfold dye. simpl. unfold node.
  destruct (h !! n) as [x|]; simpl; [|done].
  destruct (is_colour W x); simpl; [|done].
  destruct (bool_decide (c = B) || truthy st); simpl; [|done].
  destruct (decide (c = R)); [|done].
  destruct (negb (dict_mem Simulation (children x))); simpl; [|done].
  destruct (add_child _ _ _ _) as [h1| |] eqn:E1; simpl; [|done|].
  - unfold node. destruct (h1 !! n) as [x1|]; simpl; [|done].
    destruct (dict_get Simulation (children x1)) as [g'|]; [|done].
    destruct (h1 !! g') as [y|]; simpl; [|done].
    destruct (is_colour W y); simpl; [|done].
    destruct (truthy st); simpl; done.
  - unfold add_child, node in E1.
    repeat match type of E1 with
           | context [match ?a with _ => _ end] => destruct a; simpl in E1
           end; done.
Qed.

(** In a well-formed tree a node is older than its children, so the climb
    of [mark_fully_explored] from [n] ends within [n + 1] calls. *)
Lemma mark_fully_explored_returns ROOT fuel : ∀ n h,
  tree_inv ROOT h → n < fuel → mark_fully_explored fuel n h ≠ OutOfFuel.
Proof.
  induction fuel as [|fuel IH]; intros n h I Hn; [lia|].
  destruct (mark_fully_explored (S fuel) n h) as [h'| |] eqn:E; [done..|].
  exfalso. simpl in E. unfold node in E.
  destruct (h !! n) as [x|] eqn:Hx; simpl in E; [|done].
  destruct (is_colour W x); [done|].
  pose proof (nodes_returns h (dict_values (children x))) as Hnodes.
  destruct (nodes h (dict_values (children x))) as [cs| |]; simpl in E;
    [|done..].
  destruct (negb _); [done|].
  destruct (_ && _); [done|].
  set (h1 := update (set_fully_explored true) n h) in *.
  assert (evolves h h1) as E1
    by (apply marks_only_evolves, marks_only_update).
  assert (∀ h2, evolves h1 h2 →
            match parent x with
            | Some p => mark_fully_explored fuel p h2
            | None => Ok h2
            end ≠ OutOfFuel) as Hup.
  { intros h2 E2. destruct (parent x) as [p|] eqn:Ep; [|done].
    apply IH.
    - eapply evolves_tree_inv; [|done]. by eapply evolves_trans.
    - pose proof (ti_older _ _ I _ _ _ Hx Ep). lia. }
  destruct (is_colour R x).
  - destruct (dict_get Simulation (children x)) as [g|]; [|done].
    unfold node in E. destruct (h1 !! g) as [y|]; simpl in E; [|done].
    eapply Hup; [|done]. apply marks_only_evolves, marks_only_update.
  - simpl in E. eapply Hup; [|done]. apply evolves_refl.
Qed.

(** The same bound for the climb of [propagate_selection_path]. *)
Lemma propagate_selection_path_returns ROOT fuel : ∀ n are_new h,
  tree_inv ROOT h → n < fuel →
  propagate_selection_path fuel (Some n) are_new h ≠ OutOfFuel.
Proof.
  induction fuel as [|fuel IH]; intros n are_new h I Hn; [lia|].
  simpl. unfold node. destruct (h !! n) as [x|] eqn:Hx; simpl; [|done].
  destruct (parent x) as [p|] eqn:Ep.
  - apply IH.
    + eapply evolves_tree_inv; [|done]. apply evolves_update.
      intros x0 Hx0. rewrite Hx in Hx0. injection Hx0 as <-.
      split; [|done]. node_step_auto.
    + pose proof (ti_older _ _ I _ _ _ Hx Ep). lia.
  - by destruct fuel.
Qed.

(** * Further properties of the code *)

(** ** Expansion and selection *)

(** X1. [expansion] returns one new-path flag per trace, so the assertion
    [len(traces) == len(are_new)] of [mcts] and of
    [propagate_execution_traces] holds whenever [expansion] returns. *)
Theorem expansion_length ROOT traces : ∀ h are_new h',
  expansion ROOT traces h = Ok (are_new, h') →
  length are_new = length traces.
Proof.
  induction traces as [|tr traces IH]; intros h are_new h' H; simpl in H.
  - by inv_result.
  - apply bind_Ok in H as ([b h1] & _ & H).
    apply bind_Ok in H as ([bs h2] & Hbs & H). injection H as <- <-.
    simpl. f_equal. by eapply IH.
Qed.

Lemma expansion_length_witness :
  length [true] = length [[100%Z; 200%Z]].
Proof.
  apply (expansion_length 0 [[100%Z; 200%Z]] example_red_root [true]
           (update (set_sim_try 1) 2
              (update (set_children [(Simulation, 1); (KAddr 200, 2)]) 0
                 (example_red_root ++ [TreeNode_init 200 (Some 0)])))).
  vm_compute. reflexivity.
Defined.

(** X2. [selection] returns either the root (the round is given up) or a
    Gold node: nothing else is ever handed to [simulation]. *)
Theorem selection_returns_gold symex tape eval_uct cfg fuel inner ROOT :
  ∀ n g h t g' h',
  selection_loop symex tape eval_uct cfg fuel inner ROOT n g h
    = Ok (t, g', h') →
  t = ROOT ∨ ∃ y, h' !! t = Some y ∧ colour y = G.
Proof.
  induction fuel as [|fuel IH]; intros n g h t g' h' H; simpl in H.
  - apply bind_Ok in H as (x & Hx%node_Ok & H). unfold is_colour in H.
    case_bool_decide; [|done]. injection H as <- <- <-. right. eauto.
  - apply bind_Ok in H as (x & Hx%node_Ok & H). unfold is_colour in H.
    case_bool_decide; [injection H as <- <- <-; right; eauto|].
    apply bind_Ok in H as (leaf & _ & H). apply bind_Ok in H as (h1 & _ & H).
    apply bind_Ok in H as (x1 & _ & H). apply bind_Ok in H as (h2 & _ & H).
    apply bind_Ok in H as (x2 & _ & H). apply bind_Ok in H as (h3 & _ & H).
    apply bind_Ok in H as (x3 & _ & H).
    destruct (fully_explored x3); [injection H as <- <- <-; by left|].
    apply bind_Ok in H as ([c g1] & _ & H). destruct c as [c|]; [|done].
    by eapply IH.
Qed.

Lemma selection_returns_gold_witness :
  example_selection.1.1 = example_start.1.1 ∨
  ∃ y, example_selection.2 !! example_selection.1.1 = Some y ∧ colour y = G.
Proof.
  apply (selection_returns_gold example_branch_symex (λ n, n) exploit
           small_config 5 5 example_start.1.1 example_start.1.1
           example_start.1.2 example_start.2
           example_selection.1.1 example_selection.1.2 example_selection.2).
  vm_compute. reflexivity.
Defined.

(** X3. [symex_to_match] stops with no state at all, or with states one of
    which is at the address of the target; so when it returns a single
    state, that state is at the target's address, and the assertion
    [child.addr == state.addr] of [dye_siblings] cannot fail. *)
Theorem symex_to_match_stops symex fuel target h sts x :
  symex_to_match symex fuel target h = Ok sts →
  h !! target = Some x →
  (sts = [] ∨ addr x ∈ st_addr <$> sts) ∧
  ∀ st, sts = [st] → st_addr st = addr x.
Proof.
  intros H Hx.
  assert (sts = [] ∨ addr x ∈ st_addr <$> sts) as Hor.
  { unfold symex_to_match in H.
    apply bind_Ok in H as (x0 & Hx0%node_Ok & H). simplify_eq.
    apply bind_Ok in H as (p & _ & H). apply bind_Ok in H as (st & _ & H).
    destruct st as [st|]; [|done].
    generalize dependent (symex st). clear.
    induction fuel as [|fuel IH]; intros cs H; simpl in H.
    - case_bool_decide as Hne; simpl in H.
      + case_bool_decide as Hin; simpl in H; [|done].
        injection H as <-. by right.
      + injection H as <-. left.
        destruct cs; [done|]. by destruct Hne.
    - case_bool_decide as Hne; simpl in H.
      + case_bool_decide as Hin; simpl in H.
        * injection H as <-. by right.
        * apply bind_Ok in H as (u & _ & H). destruct cs as [|s cs]; [done|].
          by eapply IH.
      + injection H as <-. left.
        destruct cs; [done|]. by destruct Hne. }
  split; [done|]. intros st ->. destruct Hor as [|Hin]; [done|].
  simpl in Hin. by apply list_elem_of_singleton in Hin.
Qed.

Lemma symex_to_match_stops_witness :
  ([example_state 200; example_state 300] = [] ∨
   addr example_white
   ∈ st_addr <$> [example_state 200; example_state 300]) ∧
  ∀ st, [example_state 200; example_state 300] = [st] →
        st_addr st = addr example_white.
Proof.
  apply (symex_to_match_stops example_branch_symex 5 3 example_start.2
           [example_state 200; example_state 300] example_white);
    vm_compute; reflexivity.
Defined.

(** ** [score] away from its special values *)



(** ** The Sampler *)

Lemma byte_of_Z_value z :
  (0 ≤ z < 256)%Z → Z.of_N (Byte.to_N (byte_of_Z z)) = z.
Proof.
  intros Hz. unfold byte_of_Z.
  destruct (Byte.of_N (Z.to_N z)) as [b|] eqn:E; simpl.
  - apply Byte.to_of_N in E. lia.
  - apply Byte.of_N_None_iff in E. lia.
Qed.

Lemma to_bytes_little_spec len : ∀ v,
  (0 ≤ v < 256 ^ Z.of_nat len)%Z →
  length (to_bytes_little len v) = len ∧
  little_endian (to_bytes_little len v) = v.
Proof.
  induction len as [|len IH]; intros v Hv; simpl.
  - split; [done|]. simpl in Hv. lia.
  - rewrite Nat2Z.inj_succ, Z.pow_succ_r in Hv by lia.
    destruct (IH (v / 256)%Z) as [IH1 IH2].
    { split; [apply Z.div_pos; lia|apply Z.div_lt_upper_bound; lia]. }
    split; [by rewrite IH1|].
    rewrite IH2, byte_of_Z_value by (apply Z.mod_pos_bound; lia).
    pose proof (Z.div_mod v 256). lia.
Qed.

Lemma big_endian_rev bs : big_endian (rev bs) = little_endian bs.
Proof.
  induction bs as [|b bs IH]; [done|].
  simpl. unfold big_endian in *. rewrite fold_left_app. simpl.
  rewrite IH. lia.
Qed.

Lemma to_bytes_cases len v :
  match to_bytes len v with
  | Ok bs => length bs = len ∧ big_endian bs = v ∧
             (0 ≤ v < 256 ^ Z.of_nat len)%Z
  | Raise e => e = OverflowError ∧ (v < 0 ∨ 256 ^ Z.of_nat len ≤ v)%Z
  | OutOfFuel => False
  end.
Proof.
  unfold to_bytes.
  destruct (Z.ltb_spec v 0); simpl; [split; [done|lia]|].
  destruct (Z.leb_spec (256 ^ Z.of_nat len) v); simpl; [split; [done|lia]|].
  destruct (to_bytes_little_spec len v) as [Hl Hv]; [lia|].
  rewrite length_rev, big_endian_rev. split_and!; [done|done|lia..].
Qed.

Lemma to_bytes_Ok len v bs :
  to_bytes len v = Ok bs → length bs = len ∧ big_endian bs = v.
Proof.
  intros H. pose proof (to_bytes_cases len v) as H'.
  rewrite H in H'. by destruct H' as (? & ? & _).
Qed.

(** X5. [val.to_bytes(len, 'big')] either gives [len] bytes whose
    big-endian value is [val], or raises [OverflowError], which it does
    exactly for a negative [val] and for one that does not fit in [len]
    bytes. *)
Theorem to_bytes_big_endian len v :
  match to_bytes len v with
  | Ok bs => length bs = len ∧ big_endian bs = v ∧
             (0 ≤ v < 256 ^ Z.of_nat len)%Z
  | Raise e => e = OverflowError ∧ (v < 0 ∨ 256 ^ Z.of_nat len ≤ v)%Z
  | OutOfFuel => False
  end.
Proof. exact (to_bytes_cases len v). Qed.

(** What the loop of [app_fuzzing] returns: the values taken off the
    iterator, what is left of it, and the encodings of the values taken
    that are not [None], in their order. *)
Lemma app_fuzzing_loop_spec cfg byte_len : ∀ smp results out rest exhausted,
  app_fuzzing_loop cfg byte_len smp results = Ok (out, rest, exhausted) →
  ∃ used new,
    smp = used ++ rest ∧ out = results ++ new ∧
    Forall2 (λ v r, to_bytes byte_len v = Ok r) (omap id used) new ∧
    (Z.of_nat (length out)
     ≤ Z.max (Z.of_nat (length results)) (MAX_SAMPLES cfg))%Z ∧
    (exhausted = true → rest = []) ∧
    (exhausted = false →
     (Z.min (MIN_SAMPLES cfg) (MAX_SAMPLES cfg) ≤ Z.of_nat (length out))%Z).
Proof.
  induction smp as [|v smp IH]; intros results out rest exhausted H;
    simpl in H.
  - exists [], []. rewrite app_nil_r.
    destruct (Z.ltb_spec (Z.of_nat (length results)) (MAX_SAMPLES cfg));
      simpl in H; injection H as <- <- <-;
      split_and!; try done; try constructor; lia.
  - destruct (Z.ltb_spec (Z.of_nat (length results)) (MAX_SAMPLES cfg))
      as [Hlt|Hge]; simpl in H.
    2:{ injection H as <- <- <-. exists [], []. rewrite app_nil_r.
        split_and!; try done; try constructor; lia. }
    destruct v as [val|].
    + apply bind_Ok in H as (r & Hr & H).
      apply IH in H as (used & new & -> & -> & Hnew & Hmax & Hex & Hmin).
      exists (Some val :: used), (r :: new). rewrite <-app_assoc.
      split_and!; try done.
      * simpl. by constructor.
      * rewrite !length_app in *. simpl in *. lia.
      * intros He. specialize (Hmin He).
        rewrite !length_app in *. simpl in *. lia.
    + destruct (Z.leb_spec (MIN_SAMPLES cfg) (Z.of_nat (length results))).
      * injection H as <- <- <-. exists [None], []. rewrite app_nil_r.
        split_and!; try done; try constructor; lia.
      * apply IH in H as (used & new & -> & -> & Hnew & Hmax & Hex & Hmin).
        exists (None :: used), new. split_and!; done.
Qed.

(** X6. A call of [app_fuzzing] on a node with the state [st] takes a
    prefix [used] off the iterator of samples and leaves the rest with the
    node; the inputs it returns are the big-endian encodings, in
    [byte_len] bytes and in order, of the values of [used] that are not
    [None]; there are at most [MAX_SAMPLES] of them, and at least
    [min(MIN_SAMPLES, MAX_SAMPLES)] unless the iterator ran dry, in which
    case the node is fully explored afterwards. *)
Theorem app_fuzzing_batch cfg fuel n h results h' x st :
  app_fuzzing cfg fuel n h = Ok (results, h') →
  h !! n = Some x → state x = Some st →
  ∃ used rest x',
    default (st_models st) (samples x) = used ++ rest ∧
    h' !! n = Some x' ∧ samples x' = Some rest ∧
    Forall2 (λ v r, length r = (st_stdin_bits st + 7) / 8 ∧
                    big_endian r = v) (omap id used) results ∧
    (Z.of_nat (length results) ≤ Z.max 0 (MAX_SAMPLES cfg))%Z ∧
    ((Z.min (MIN_SAMPLES cfg) (MAX_SAMPLES cfg)
      ≤ Z.of_nat (length results))%Z ∨
     (rest = [] ∧ fully_explored x' = true)).
Proof.
  unfold app_fuzzing. intros H Hx Hst.
  apply bind_Ok in H as (x0 & Hx0%node_Ok & H). simplify_eq.
  rewrite Hst in H. simpl in H.
  apply bind_Ok in H as ([[res rest] exhausted] & Hloop & H).
  apply app_fuzzing_loop_spec in Hloop
    as (used & new & Hsmp & -> & Hnew & Hmax & Hex & Hmin).
  cbn [app length] in *.
  assert (Forall2 (λ v r, length r = (st_stdin_bits st + 7) / 8 ∧
                          big_endian r = v) (omap id used) new) as Henc.
  { clear -Hnew. induction Hnew as [|v r vs rs Hr _ IH]; constructor;
      [by apply to_bytes_Ok in Hr|done]. }
  assert (default (st_models st) (samples x0) = used ++ rest) as Hdef
    by (by destruct (samples x0)).
  set (h1 := update (set_samples (Some rest)) n h) in *.
  assert (h1 !! n = Some (set_samples (Some rest) x0)) as Hh1.
  { unfold h1. by rewrite update_lookup, decide_True, Hx0 by done. }
  destruct exhausted.
  - apply bind_Ok in H as (h3 & Hh3%mark_fully_explored_marks_only & H).
    injection H as <- <-.
    assert (update (set_fully_explored true) n h1 !! n
            = Some (set_fully_explored true (set_samples (Some rest) x0)))
      as Hh2 by (by rewrite update_lookup, decide_True, Hh1 by done).
    destruct Hh3 as [_ Hh3]. destruct (Hh3 _ _ Hh2) as (b & Hb & Hm).
    exists used, rest,
      (set_fully_explored b
         (set_fully_explored true (set_samples (Some rest) x0))).
    split_and!; [done|apply Hb|done|done|done|].
    right. split; [by apply Hex|]. simpl. by apply Hm.
  - injection H as <- <-.
    exists used, rest, (set_samples (Some rest) x0).
    split_and!; [done|apply Hh1|done|done|done|].
    left. by apply Hmin.
Qed.

Lemma app_fuzzing_batch_witness :
  ∃ used rest x',
    default (st_models (example_state 100)) (samples example_gold)
      = used ++ rest ∧
    example_sampled.2 !! 1 = Some x' ∧ samples x' = Some rest ∧
    Forall2 (λ v r, length r = (st_stdin_bits (example_state 100) + 7) / 8 ∧
                    big_endian r = v) (omap id used) example_sampled.1 ∧
    (Z.of_nat (length example_sampled.1)
     ≤ Z.max 0 (MAX_SAMPLES default_config))%Z ∧
    ((Z.min (MIN_SAMPLES default_config) (MAX_SAMPLES default_config)
      ≤ Z.of_nat (length example_sampled.1))%Z ∨
     (rest = [] ∧ fully_explored x' = true)).
Proof.
  apply (app_fuzzing_batch default_config 5 1 example_red_root
           example_sampled.1 example_sampled.2 example_gold
           (example_state 100));
    vm_compute; reflexivity.
Defined.
